(** * Ping sweep: a shallow embedding of [ping_sweep.py]

  The development follows the script function by function:
  [get_ping_command], [ping_once], [sweep_network] and [main].  The
  operating system is an explicit parameter: the name reported by
  [platform.system()], the behaviour of [subprocess.run] on a command line,
  and the order in which [concurrent.futures.as_completed] hands back the
  futures.  Effects (processes started, log records written) are threaded
  through a small state-and-exception monad.

  Python's [ipaddress] module is modelled for IPv4 networks given as an
  address and a prefix length; the thread pool is modelled twice: as the
  sequential meaning of [submit]/[result] used by [sweep_network], and as an
  interleaving machine ([Module Pool]) for the bound on running probes. *)

From stdpp Require Import gmap strings list list_numbers fin_maps pretty.
From Stdlib Require Import ZArith Lia Ascii.

(** ** Python values used by the script *)

(** [str(n)] for an [int]: decimal digits, with a leading minus sign. *)
Definition str_int (n : Z) : string := pretty n.

(** The exceptions that can travel through the script. *)
Inductive exn : Type :=
| FileNotFoundError
| RuntimeError (msg : string)
| ValueError (msg : string)
| KeyError
| OtherException (msg : string).

Global Instance exn_eq_dec : EqDecision exn.
Proof. solve_decision. Defined.

(** Records written through [logging], one constructor per call site. *)
Inductive LogRecord : Type :=
| StartingSweep (nhosts : nat) (threads : Z)   (* line 63, INFO *)
| ErrorPinging (ip : string) (exc : exn)        (* line 73, ERROR *)
| IsUp (ip : string)                            (* line 77, INFO *)
| IsDown (ip : string)                          (* line 79, INFO *)
| Critical (msg : string)                       (* line 97, CRITICAL *)
| ScanFinished (up_count total : nat).          (* line 103, INFO *)

Inductive Level : Type := INFO | ERROR | CRITICAL.

Definition levelname (r : LogRecord) : Level :=
  match r with
  | ErrorPinging _ _ => ERROR
  | Critical _ => CRITICAL
  | _ => INFO
  end.

(** What the script does to the outside: the command lines handed to
  [subprocess.run], in the order of the calls, and the log. *)
Record World : Type := mkWorld {
  invoked : list (list string);
  log : list LogRecord
}.

Definition world0 : World := mkWorld [] [].

(** ** State and exception monad *)

Definition M (A : Type) : Type := World → (exn + A) * World.

Global Instance M_ret : MRet M := λ A x w, (inr x, w).

Global Instance M_bind : MBind M := λ A B f m w,
  match m w with
  | (inl e, w') => (inl e, w')
  | (inr x, w') => f x w'
  end.

Definition raise {A} (e : exn) : M A := λ w, (inl e, w).

(** [try: m except Exception as e: h e] *)
Definition try_except {A} (m : M A) (h : exn → M A) : M A := λ w,
  match m w with
  | (inl e, w') => h e w'
  | (inr x, w') => (inr x, w')
  end.

Definition logging (r : LogRecord) : M unit := λ w,
  (inr (), mkWorld (invoked w) (log w ++ [r])).

(** ** [ipaddress]: IPv4 networks *)

Module ipaddress.

Definition ALL_ONES : Z := 2 ^ 32 - 1.
Definition max_prefixlen : Z := 32.

(** [range(a, b)] *)
Definition range (a b : Z) : list Z := seqZ a (b - a).

(** [_ip_int_from_prefix] *)
Definition ip_int_from_prefix (prefixlen : Z) : Z :=
  Z.lxor ALL_ONES (Z.shiftr ALL_ONES prefixlen).

Record IPv4Network : Type := mkNet {
  network_address : Z;
  netmask : Z;
  prefixlen : Z;
  hosts : list Z
}.

Definition hostmask (netmask : Z) : Z := Z.lxor netmask ALL_ONES.

Definition broadcast_address (network netmask : Z) : Z :=
  Z.lor network (hostmask netmask).

(** [ip_network(address, strict=False)] for an IPv4 address [addr] (as an
    integer) and a prefix length: host bits are masked away rather than
    rejected, and [hosts] is the method the constructor of [IPv4Network]
    installs: [__iter__] (all addresses) for a /31, the list holding the
    address itself for a /32, and otherwise the addresses strictly between
    the network and the broadcast address. *)
Definition ip_network (addr len : Z) : exn + IPv4Network :=
  if decide (0 ≤ addr ≤ ALL_ONES)%Z then
    if decide (0 ≤ len ≤ max_prefixlen)%Z then
      let mask := ip_int_from_prefix len in
      let network := Z.land addr mask in
      let broadcast := broadcast_address network mask in
      let hosts :=
        if decide (len = max_prefixlen - 1)%Z then range network (broadcast + 1)
        else if decide (len = max_prefixlen) then [addr]
        else range (network + 1) broadcast in
      inr (mkNet network mask len hosts)
    else inl (ValueError "invalid prefix length")
  else inl (ValueError "invalid IPv4 address").

(** [ip_int.to_bytes(4, 'big')] *)
Definition to_bytes (ip_int : Z) : list Z :=
  [ Z.land (Z.shiftr ip_int 24) 255;
    Z.land (Z.shiftr ip_int 16) 255;
    Z.land (Z.shiftr ip_int 8) 255;
    Z.land ip_int 255 ].

(** [str(ip)]: dotted decimal notation,
    ['.'.join(map(str, ip_int.to_bytes(4, 'big')))]. *)
Definition string_from_ip_int (ip_int : Z) : string :=
  String.concat "." (str_int <$> to_bytes ip_int).

(** A string without the separator of dotted notation. *)
Fixpoint dot_free (s : string) : bool :=
  match s with
  | EmptyString => true
  | String c s' => bool_decide (c ≠ "."%char) && dot_free s'
  end.

End ipaddress.

(** ** Futures *)

(** A future that is done: its identity and what the call returned or
  raised. *)
Record Future : Type := mkFuture {
  fut_id : nat;
  fut_outcome : exn + bool
}.

Global Instance Future_eq_dec : EqDecision Future.
Proof. solve_decision. Defined.

Definition exn_code (e : exn) : nat * string :=
  match e with
  | FileNotFoundError => (0, "")
  | RuntimeError m => (1, m)
  | ValueError m => (2, m)
  | KeyError => (3, "")
  | OtherException m => (4, m)
  end.

Definition exn_decode (c : nat * string) : exn :=
  match c with
  | (0, _) => FileNotFoundError
  | (1, m) => RuntimeError m
  | (2, m) => ValueError m
  | (3, _) => KeyError
  | (_, m) => OtherException m
  end.

Global Program Instance exn_countable : Countable exn :=
  inj_countable' exn_code exn_decode _.
Next Obligation. by intros []. Qed.

Global Program Instance Future_countable : Countable Future :=
  inj_countable' (λ f, (fut_id f, fut_outcome f)) (λ p, mkFuture p.1 p.2) _.
Next Obligation. by intros []. Qed.

(** [ThreadPoolExecutor]: the bound and the number of futures handed out. *)
Record ThreadPoolExecutor : Type := mkExecutor {
  max_workers : Z;
  submitted : nat
}.

(** [ceil(a / b)] for a positive [b], as the spec words the conversion of
    milliseconds to whole seconds. *)
Definition ceiling (a b : Z) : Z := (- ((- a) / b))%Z.

(** ** The script

  The probes run in worker threads while the main thread submits and
  collects.  A probe touches nothing but its own future and the process it
  starts, and only the main thread writes to the log and to [results]; the
  meaning of [submit] below therefore runs the probe where it is submitted,
  which keeps [invoked] in the order of submission.  What the threads leave
  open, the order in which the futures come back, is the parameter
  [as_completed]. *)

Section Script.

(** [platform.system()] *)
Variable system : string.

(** [subprocess.run(cmd, ...)]: the return code of the process, or the
    exception raised when it cannot be started. *)
Variable subprocess_run : list string → exn + Z.

(** [as_completed(fs)]: the futures in the order they are yielded. *)
Variable as_completed : list Future → list Future.

Definition get_ping_command (ip : string) (timeout_ms : Z) : list string :=
  if decide (system = "Windows") then
    ["ping"; "-n"; "1"; "-w"; str_int timeout_ms; ip]
  else
    let secs := Z.max 1 ((timeout_ms + 999) / 1000) in
    ["ping"; "-c"; "1"; "-W"; str_int secs; ip].

Definition run (cmd : list string) : M Z := λ w,
  let w' := mkWorld (invoked w ++ [cmd]) (log w) in
  match subprocess_run cmd with
  | inl e => (inl e, w')
  | inr returncode => (inr returncode, w')
  end.

Definition ping_once (ip : string) (timeout_ms : Z) : M bool :=
  let cmd := get_ping_command ip timeout_ms in
  try_except
    (returncode ← run cmd;
     mret (bool_decide (returncode = 0%Z)))
    (λ e, match e with
          | FileNotFoundError =>
              raise (RuntimeError "'ping' command not found on this system")
          | _ => raise e
          end).

(** [ThreadPoolExecutor(max_workers=threads)] *)
Definition new_executor (threads : Z) : M ThreadPoolExecutor :=
  if decide (threads ≤ 0)%Z
  then raise (ValueError "max_workers must be greater than 0")
  else mret (mkExecutor threads 0).

(** [executor.submit(ping_once, ip, timeout_ms)]: a worker runs the call and
    stores what it returns or raises in the future. *)
Definition submit (executor : ThreadPoolExecutor) (ip : string) (timeout_ms : Z)
  : M (Future * ThreadPoolExecutor) := λ w,
  let '(outcome, w') := ping_once ip timeout_ms w in
  (inr (mkFuture (submitted executor) outcome,
        mkExecutor (max_workers executor) (S (submitted executor))), w').

(** [future.result()] *)
Definition result (future : Future) : M bool :=
  match fut_outcome future with
  | inl e => raise e
  | inr up => mret up
  end.

(** The dictionary comprehension of line 66. *)
Fixpoint submit_all (executor : ThreadPoolExecutor) (hosts : list string)
    (timeout_ms : Z) (future_to_ip : gmap Future string)
  : M (gmap Future string) :=
  match hosts with
  | [] => mret future_to_ip
  | ip :: rest =>
      '(future, executor') ← submit executor ip timeout_ms;
      submit_all executor' rest timeout_ms (<[future := ip]> future_to_ip)
  end.

(** [future_to_ip[future]] *)
Definition getitem (future_to_ip : gmap Future string) (future : Future) : M string :=
  match future_to_ip !! future with
  | Some ip => mret ip
  | None => raise KeyError
  end.

(** The loop of lines 67 to 79. *)
Fixpoint collect (future_to_ip : gmap Future string) (quiet : bool)
    (futures : list Future) (results : list (string * bool))
  : M (list (string * bool)) :=
  match futures with
  | [] => mret results
  | future :: rest =>
      ip ← getitem future_to_ip future;
      up ← try_except (result future)
              (λ exc, logging (ErrorPinging ip exc);; mret false);
      let results := results ++ [(ip, up)] in
      (if quiet then mret ()
       else if up then logging (IsUp ip) else logging (IsDown ip));;
      collect future_to_ip quiet rest results
  end.

(** The keys of a dictionary, as iterating over it gives them. *)
Definition keys (future_to_ip : gmap Future string) : list Future :=
  (map_to_list future_to_ip).*1.

Definition sweep_network (addr len : Z) (threads timeout_ms : Z) (quiet : bool)
  : M (list (string * bool)) :=
  match ipaddress.ip_network addr len with
  | inl e => raise e
  | inr net =>
      let hosts := ipaddress.string_from_ip_int <$> ipaddress.hosts net in
      logging (StartingSweep (length hosts) threads);;
      executor ← new_executor threads;
      future_to_ip ← submit_all executor hosts timeout_ms ∅;
      collect future_to_ip quiet (as_completed (keys future_to_ip)) []
  end.

(** The namespace returned by [parse_args]. *)
Record Args : Type := mkArgs {
  arg_address : Z;
  arg_prefixlen : Z;
  arg_threads : Z;
  arg_timeout : Z;
  arg_quiet : bool
}.

(** [sum(1 for _, up in results if up)] *)
Definition up_count (results : list (string * bool)) : nat :=
  sum_list ((λ _, 1) <$> filter (λ r, r.2 = true) results).

Definition total (results : list (string * bool)) : nat := length results.

(** [main]: the exit status of the process.  [sys.exit(1)] and an
    exception nobody catches both end the process with status 1. *)
Definition main (args : Args) : World → Z * World := λ w,
  match sweep_network (arg_address args) (arg_prefixlen args)
          (Z.max 1 (arg_threads args)) (Z.max 1 (arg_timeout args))
          (arg_quiet args) w with
  | (inl (RuntimeError msg), w') =>
      (1%Z, mkWorld (invoked w') (log w' ++ [Critical msg]))
  | (inl _, w') => (1%Z, w')
  | (inr results, w') =>
      (0%Z, mkWorld (invoked w')
              (log w' ++ [ScanFinished (up_count results) (total results)]))
  end.

(** *** What a run records, host by host *)

(** What the future of a host holds once its probe has run. *)
Definition future_outcome (ip : string) (timeout_ms : Z) : exn + bool :=
  (ping_once ip timeout_ms world0).1.

(** The [up] of lines 70 to 72 for a future. *)
Definition up_of (future : Future) : bool :=
  match fut_outcome future with
  | inr up => up
  | inl _ => false
  end.

(** The pair line 74 appends for a host. *)
Definition recorded (timeout_ms : Z) (ip : string) : string * bool :=
  (ip, up_of (mkFuture 0 (future_outcome ip timeout_ms))).

(** The futures of [hosts] paired with their addresses, numbered from [k]
    in the order of submission. *)
Fixpoint entries (k : nat) (hosts : list string) (timeout_ms : Z)
  : list (Future * string) :=
  match hosts with
  | [] => []
  | ip :: rest =>
      (mkFuture k (future_outcome ip timeout_ms), ip) :: entries (S k) rest timeout_ms
  end.

(** The host list of line 60; empty when the network is refused. *)
Definition hosts_of (addr len : Z) : list string :=
  match ipaddress.ip_network addr len with
  | inr net => ipaddress.string_from_ip_int <$> ipaddress.hosts net
  | inl _ => []
  end.

End Script.


(** ** Outcomes and counts

  A recorded pair carries a boolean: [True] stands for a host that is up,
  [False] for one that is down; the script records no third value. *)

Inductive ProbeOutcome : Type := Up | Down | Error.

Global Instance ProbeOutcome_eq_dec : EqDecision ProbeOutcome.
Proof. solve_decision. Defined.

Definition outcome_of (up : bool) : ProbeOutcome := if up then Up else Down.

Definition count_outcome (o : ProbeOutcome) (results : list (string * bool)) : nat :=
  length (filter (λ r, outcome_of r.2 = o) results).

Definition down_count : list (string * bool) → nat := count_outcome Down.


(** ** The thread pool as an interleaving machine

  [concurrent.futures.ThreadPoolExecutor] as [sweep_network] drives it: the
  main thread submits one work item per host; [submit] puts the item on the
  FIFO work queue and calls [_adjust_thread_count], which starts a new worker
  thread only when no worker is idle and fewer than [max_workers] threads
  exist; a worker loops over taking an item from the queue, running it (here:
  [ping_once] on the item's address) and releasing the idle semaphore. *)

Module Pool.

Inductive Worker : Type :=
| Waiting                     (* blocked in [work_queue.get(block=True)] *)
| Running (ip : string).      (* inside [work_item.run()] *)

Record State : Type := mkState {
  pending : list string;        (* hosts the comprehension has not reached yet *)
  work_queue : list string;
  threads : list Worker;
  idle_semaphore : nat;
  completed : list string
}.

Inductive Event : Type :=
| Submit                (* the main thread calls [executor.submit] *)
| Get (i : nat)         (* worker [i] takes the next item and starts it *)
| Done (i : nat).       (* worker [i] finishes its item *)

Definition init (hosts : list string) : State := mkState hosts [] [] 0 [].

(** [_adjust_thread_count] *)
Definition adjust_thread_count (max_workers : Z) (s : State) : State :=
  match idle_semaphore s with
  | S n => mkState (pending s) (work_queue s) (threads s) n (completed s)
  | O =>
    if decide (Z.of_nat (length (threads s)) < max_workers)%Z
    then mkState (pending s) (work_queue s) (threads s ++ [Waiting]) 0 (completed s)
    else s
  end.

Definition step (max_workers : Z) (e : Event) (s : State) : option State :=
  match e with
  | Submit =>
    match pending s with
    | ip :: rest =>
        Some (adjust_thread_count max_workers
                (mkState rest (work_queue s ++ [ip]) (threads s)
                   (idle_semaphore s) (completed s)))
    | [] => None
    end
  | Get i =>
    match threads s !! i, work_queue s with
    | Some Waiting, ip :: queue =>
        Some (mkState (pending s) queue (<[i := Running ip]> (threads s))
                (idle_semaphore s) (completed s))
    | _, _ => None
    end
  | Done i =>
    match threads s !! i with
    | Some (Running ip) =>
        Some (mkState (pending s) (work_queue s) (<[i := Waiting]> (threads s))
                (S (idle_semaphore s)) (completed s ++ [ip]))
    | _ => None
    end
  end.

(** A schedule is a list of events; it is refused as a whole when one of its
  events is not enabled. *)
Fixpoint exec (max_workers : Z) (schedule : list Event) (s : State) : option State :=
  match schedule with
  | [] => Some s
  | e :: rest =>
    match step max_workers e s with
    | Some s' => exec max_workers rest s'
    | None => None
    end
  end.

Definition is_running (w : Worker) : bool :=
  match w with Running _ => true | Waiting => false end.

(** The probes that are executing in a state. *)
Definition in_flight (s : State) : nat :=
  length (filter (λ w, is_running w = true) (threads s)).

(** The pool [main] sets up for [--threads n]. *)
Definition concurrency (arg_threads : Z) : Z := Z.max 1 arg_threads.

(** The addresses whose probes are executing. *)
Definition running_ips (ws : list Worker) : list string :=
  omap (λ w, match w with Running ip => Some ip | Waiting => None end) ws.

(** Every host of the sweep, wherever the run has taken it: finished,
    executing, queued, or not yet submitted. *)
Definition tasks (s : State) : list string :=
  completed s ++ running_ips (threads s) ++ work_queue s ++ pending s.

(** The executor owns at most [max_workers] threads. *)
Definition bounded (max_workers : Z) (s : State) : Prop :=
  (Z.of_nat (length (threads s)) ≤ max_workers)%Z.

(** The schedule in which every host is submitted, started and finished
    before the next one is submitted. *)
Definition serial (hosts : list string) : list Event :=
  hosts ≫= λ _, [Submit; Get 0; Done 0].

(** The steps a state still has to take: three for a host that is not yet
    submitted, two for a queued one, one for a probe that is executing. *)
Definition work_left (s : State) : nat :=
  3 * length (pending s) + 2 * length (work_queue s) + in_flight s.

(** Nothing is left to do. *)
Definition drained (s : State) : Prop :=
  pending s = [] ∧ work_queue s = [] ∧ in_flight s = 0.

(** Work that waits, or a worker that has reported idle, implies that the
    executor has started a thread. *)
Definition supplied (s : State) : Prop :=
  work_queue s ≠ [] ∨ idle_semaphore s ≠ 0 → threads s ≠ [].

End Pool.

(** ** Reading the log *)

(** The records lines 71 to 79 write while one future is handled. *)
Definition host_records (quiet : bool) (ip : string) (future : Future)
  : list LogRecord :=
  match fut_outcome future with
  | inl exc => ErrorPinging ip exc :: (if quiet then [] else [IsDown ip])
  | inr up => if quiet then [] else [if up then IsUp ip else IsDown ip]
  end.

(** The host and status a status line reports. *)
Definition status_line (r : LogRecord) : option (string * bool) :=
  match r with
  | IsUp ip => Some (ip, true)
  | IsDown ip => Some (ip, false)
  | _ => None
  end.

(** The host and exception an error record reports. *)
Definition error_line (r : LogRecord) : option (string * exn) :=
  match r with
  | ErrorPinging ip exc => Some (ip, exc)
  | _ => None
  end.


(** The hosts whose probe ends with return code 0. *)
Definition answering (system : string) (subprocess_run : list string → exn + Z)
    (timeout_ms : Z) (hosts : list string) : list string :=
  filter (λ ip, subprocess_run (get_ping_command system ip timeout_ms) = inr 0%Z)
    hosts.

(** ** Scenarios

  Concrete environments: the network 10.0.0.0 with several prefix lengths,
  hosts that answer or stay silent, a system without [ping], and two orders
  of completion. *)

Module Scenario.

(** The address 10.0.0.0 as an integer. *)
Definition ten : Z := 167772160.

Definition net30 : ipaddress.IPv4Network :=
  ipaddress.mkNet 167772160 4294967292 30 [167772161%Z; 167772162%Z].

Definition net32 : ipaddress.IPv4Network :=
  ipaddress.mkNet 167772160 4294967295 32 [167772160%Z].

(** Every host answers. *)
Definition all_answer (cmd : list string) : exn + Z := inr 0%Z.

(** Only 10.0.0.1 answers; for the others [ping] ends with status 1. *)
Definition one_answers (cmd : list string) : exn + Z :=
  if decide (cmd !! 5 = Some "10.0.0.1") then inr 0%Z else inr 1%Z.


(** There is no [ping] binary on the system. *)
Definition ping_missing (cmd : list string) : exn + Z := inl FileNotFoundError.

(** Futures complete in the order of submission, or in the opposite order. *)
Definition in_order (fs : list Future) : list Future := fs.
Definition backwards (fs : list Future) : list Future := reverse fs.

(** [ping_sweep.py 10.0.0.0/30] and [ping_sweep.py 10.0.0.0/30 --timeout 0];
    threads and timeout default to 32 and 300. *)
Definition args30 : Args := mkArgs ten 30 32 300 false.
Definition args30_timeout0 : Args := mkArgs ten 30 32 0 false.

End Scenario.

(** * Properties *)

(** ** The command line *)

Section Command.

Context (system : string).

Lemma get_ping_command_windows ip timeout_ms :
  system = "Windows" →
  get_ping_command system ip timeout_ms
  = ["ping"; "-n"; "1"; "-w"; str_int timeout_ms; ip].
Proof. intros Hs. unfold get_ping_command. by rewrite decide_True. Qed.

Lemma get_ping_command_unix ip timeout_ms :
  system ≠ "Windows" →
  get_ping_command system ip timeout_ms
  = ["ping"; "-c"; "1"; "-W"; str_int (Z.max 1 ((timeout_ms + 999) / 1000)); ip].
Proof. intros Hs. unfold get_ping_command. by rewrite decide_False. Qed.


Lemma get_ping_command_target ip timeout_ms :
  get_ping_command system ip timeout_ms !! 5 = Some ip.
Proof. unfold get_ping_command. by case_decide. Qed.

Lemma get_ping_command_inj ip1 ip2 timeout_ms :
  get_ping_command system ip1 timeout_ms = get_ping_command system ip2 timeout_ms →
  ip1 = ip2.
Proof.
  intros H. apply (f_equal (λ c, c !! 5)) in H.
  rewrite !get_ping_command_target in H. congruence.
Qed.

End Command.

Lemma floor_is_ceiling (t : Z) : ((t + 999) / 1000 = ceiling t 1000)%Z.
Proof. unfold ceiling. Z.div_mod_to_equations. lia. Qed.

Lemma ceiling_spec (t : Z) :
  (1000 * (ceiling t 1000 - 1) < t ≤ 1000 * ceiling t 1000)%Z.
Proof. unfold ceiling. Z.div_mod_to_equations. lia. Qed.

(** C10: away from Windows the timeout handed to [ping -W] is the ceiling of
    [timeout_ms / 1000], raised to at least 1; so every request of at most
    1000 ms becomes exactly 1 second. *)
Theorem unix_timeout_whole_seconds (system ip : string) (timeout_ms : Z) :
  system ≠ "Windows" →
  ∃ secs : Z,
    get_ping_command system ip timeout_ms
    = ["ping"; "-c"; "1"; "-W"; str_int secs; ip]
    ∧ secs = Z.max 1 (ceiling timeout_ms 1000)
    ∧ (1 ≤ secs)%Z
    ∧ ((timeout_ms ≤ 1000)%Z ↔ secs = 1%Z).
Proof.
  intros Hs. exists (Z.max 1 ((timeout_ms + 999) / 1000)).
  rewrite get_ping_command_unix by done.
  rewrite floor_is_ceiling. pose proof (ceiling_spec timeout_ms).
  repeat split; lia.
Qed.

Lemma unix_timeout_whole_seconds_witness :
  ∃ secs : Z,
    get_ping_command "Linux" "10.0.0.1" 300
    = ["ping"; "-c"; "1"; "-W"; str_int secs; "10.0.0.1"]
    ∧ secs = Z.max 1 (ceiling 300 1000)
    ∧ (1 ≤ secs)%Z
    ∧ ((300 ≤ 1000)%Z ↔ secs = 1%Z).
Proof. apply (unix_timeout_whole_seconds "Linux" "10.0.0.1" 300). discriminate. Defined.

(** ** One probe *)

Section Probe.

Context (system : string) (subprocess_run : list string → exn + Z).

Local Abbreviation command := (get_ping_command system).
Local Abbreviation probe := (ping_once system subprocess_run).

(** [ping_once] in closed form: one call of [subprocess.run], the log
    untouched, and the three ways the call can end. *)
Lemma ping_once_unfold ip timeout_ms w :
  probe ip timeout_ms w
  = (match subprocess_run (command ip timeout_ms) with
     | inr returncode => inr (bool_decide (returncode = 0%Z))
     | inl FileNotFoundError =>
         inl (RuntimeError "'ping' command not found on this system")
     | inl e => inl e
     end,
     mkWorld (invoked w ++ [command ip timeout_ms]) (log w)).
Proof.
  unfold ping_once, try_except, run, mbind, M_bind, mret, M_ret, raise.
  destruct (subprocess_run _) as [[]|]; reflexivity.
Qed.



Lemma future_outcome_up ip timeout_ms :
  future_outcome system subprocess_run ip timeout_ms = inr true
  ↔ subprocess_run (command ip timeout_ms) = inr 0%Z.
Proof.
  unfold future_outcome. rewrite ping_once_unfold. simpl.
  destruct (subprocess_run _) as [[]|rc]; split; try discriminate.
  - intros [= H]. apply bool_decide_eq_true in H. by subst.
  - intros [= ->]. done.
Qed.


(** The pair recorded for a host says "up" exactly when its own probe
    ended with return code 0. *)
Lemma recorded_up ip timeout_ms :
  (recorded system subprocess_run timeout_ms ip).2 = true
  ↔ subprocess_run (command ip timeout_ms) = inr 0%Z.
Proof.
  rewrite <- future_outcome_up. unfold recorded, up_of. simpl.
  destruct (future_outcome _ _ _ _) as [e|[]]; split; congruence.
Qed.

Lemma recorded_address ip timeout_ms :
  (recorded system subprocess_run timeout_ms ip).1 = ip.
Proof. reflexivity. Qed.


End Probe.

(** ** Addresses and their text *)

Section Addresses.

Import ipaddress.

Lemma dot_free_split (a b x y : string) :
  dot_free a = true → dot_free b = true →
  a +:+ String "." x = b +:+ String "." y → a = b ∧ x = y.
Proof.
  revert b. induction a as [|c a IH]; intros [|d b] Ha Hb Heq; simpl in *.
  - by injection Heq.
  - injection Heq as <- _. by rewrite bool_decide_eq_false_2 in Hb by auto.
  - injection Heq as -> _. by rewrite bool_decide_eq_false_2 in Ha by auto.
  - injection Heq as -> Heq.
    apply andb_prop in Ha as [_ Ha]. apply andb_prop in Hb as [_ Hb].
    destruct (IH b Ha Hb Heq) as [-> ->]. done.
Qed.

Lemma octets_dot_free_table :
  forallb (λ n, dot_free (str_int n)) (seqZ 0 256) = true.
Proof. vm_compute. reflexivity. Qed.

Lemma octet_dot_free (n : Z) : (0 ≤ n < 256)%Z → dot_free (str_int n) = true.
Proof.
  intros Hn. pose proof octets_dot_free_table as H.
  rewrite forallb_forall in H. apply H.
  apply list_elem_of_In, elem_of_seqZ. lia.
Qed.

Lemma str_int_inj (m n : Z) : str_int m = str_int n → m = n.
Proof. unfold str_int. apply (inj pretty). Qed.

Lemma land_255 (x : Z) : Z.land x 255 = (x mod 256)%Z.
Proof. change 255%Z with (Z.ones 8). by rewrite Z.land_ones. Qed.

Lemma to_bytes_eq (a : Z) :
  to_bytes a
  = [ ((a / 2 ^ 24) mod 256)%Z; ((a / 2 ^ 16) mod 256)%Z;
      ((a / 2 ^ 8) mod 256)%Z; (a mod 256)%Z ].
Proof.
  unfold to_bytes. rewrite !land_255, !Z.shiftr_div_pow2 by lia. done.
Qed.

Lemma to_bytes_inj (a b : Z) :
  (0 ≤ a ≤ ALL_ONES)%Z → (0 ≤ b ≤ ALL_ONES)%Z →
  to_bytes a = to_bytes b → a = b.
Proof.
  unfold ALL_ONES. rewrite !to_bytes_eq. intros Ha Hb [= H3 H2 H1 H0].
  change (2 ^ 24)%Z with 16777216%Z in *. change (2 ^ 16)%Z with 65536%Z in *.
  change (2 ^ 8)%Z with 256%Z in *. change (2 ^ 32)%Z with 4294967296%Z in *.
  Z.div_mod_to_equations. lia.
Qed.

Lemma string_from_ip_int_eq (a : Z) :
  string_from_ip_int a
  = str_int ((a / 2 ^ 24) mod 256) +:+ String "."
      (str_int ((a / 2 ^ 16) mod 256) +:+ String "."
         (str_int ((a / 2 ^ 8) mod 256) +:+ String "."
            (str_int (a mod 256)))).
Proof. unfold string_from_ip_int. rewrite to_bytes_eq. reflexivity. Qed.

(** Distinct addresses are written differently. *)
Lemma string_from_ip_int_inj (a b : Z) :
  (0 ≤ a ≤ ALL_ONES)%Z → (0 ≤ b ≤ ALL_ONES)%Z →
  string_from_ip_int a = string_from_ip_int b → a = b.
Proof.
  intros Ha Hb. rewrite !string_from_ip_int_eq. intros H.
  apply to_bytes_inj; [done..|]. rewrite !to_bytes_eq.
  assert (∀ x, 0 ≤ x mod 256 < 256)%Z as Hoct by (intros; apply Z.mod_pos_bound; lia).
  apply dot_free_split in H as [H3 H]; [|by apply octet_dot_free..].
  apply dot_free_split in H as [H2 H]; [|by apply octet_dot_free..].
  apply dot_free_split in H as [H1 H0]; [|by apply octet_dot_free..].
  apply str_int_inj in H3, H2, H1, H0. congruence.
Qed.

End Addresses.

(** ** The hosts of a network *)

Section Hosts.

Import ipaddress.

Lemma in_range_land (x : Z) : (0 ≤ x ≤ ALL_ONES)%Z ↔ Z.land x ALL_ONES = x.
Proof.
  change ALL_ONES with (Z.ones 32) at 2. rewrite Z.land_ones by lia.
  unfold ALL_ONES. split.
  - intros H. apply Z.mod_small. lia.
  - intros <-. pose proof (Z.mod_pos_bound x (2 ^ 32)). lia.
Qed.

Lemma hostmask_prefix (len : Z) :
  hostmask (ip_int_from_prefix len) = Z.shiftr ALL_ONES len.
Proof.
  unfold hostmask, ip_int_from_prefix.
  rewrite (Z.lxor_comm ALL_ONES), Z.lxor_assoc, Z.lxor_nilpotent.
  apply Z.lxor_0_r.
Qed.

Lemma hostmask_in_range (len : Z) :
  (0 ≤ len)%Z → (0 ≤ Z.shiftr ALL_ONES len ≤ ALL_ONES)%Z.
Proof.
  intros Hlen. rewrite Z.shiftr_div_pow2 by done.
  assert (0 < 2 ^ len)%Z by (apply Z.pow_pos_nonneg; lia).
  unfold ALL_ONES. split.
  - apply Z.div_pos; lia.
  - apply Z.div_le_upper_bound; nia.
Qed.

Lemma network_in_range (addr len : Z) :
  (0 ≤ addr ≤ ALL_ONES)%Z →
  (0 ≤ Z.land addr (ip_int_from_prefix len) ≤ ALL_ONES)%Z.
Proof.
  intros Ha. apply in_range_land.
  rewrite <- Z.land_assoc, (Z.land_comm _ ALL_ONES), Z.land_assoc.
  f_equal. by apply in_range_land.
Qed.

Lemma broadcast_in_range (addr len : Z) :
  (0 ≤ addr ≤ ALL_ONES)%Z → (0 ≤ len)%Z →
  let mask := ip_int_from_prefix len in
  (0 ≤ broadcast_address (Z.land addr mask) mask ≤ ALL_ONES)%Z.
Proof.
  intros Ha Hlen mask. unfold broadcast_address. subst mask.
  rewrite hostmask_prefix. apply in_range_land.
  rewrite Z.land_lor_distr_l. f_equal; apply in_range_land.
  - by apply network_in_range.
  - by apply hostmask_in_range.
Qed.

(** The hosts of a network are pairwise distinct 32-bit addresses. *)
Lemma ip_network_hosts (addr len : Z) (net : IPv4Network) :
  ip_network addr len = inr net →
  NoDup (hosts net) ∧ Forall (λ h, 0 ≤ h ≤ ALL_ONES)%Z (hosts net).
Proof.
  unfold ip_network. intros H.
  destruct (decide (0 ≤ addr ≤ ALL_ONES)%Z) as [Ha|]; [|discriminate].
  destruct (decide (0 ≤ len ≤ max_prefixlen)%Z) as [Hl|]; [|discriminate].
  injection H as <-. simpl.
  pose proof (network_in_range addr len Ha) as Hn.
  pose proof (broadcast_in_range addr len Ha (proj1 Hl)) as Hb. simpl in Hb.
  repeat case_decide.
  - split; [apply NoDup_seqZ|]. apply Forall_forall. intros h Hh.
    apply elem_of_seqZ in Hh. lia.
  - split; [apply NoDup_singleton|]. by apply Forall_singleton.
  - split; [apply NoDup_seqZ|]. apply Forall_forall. intros h Hh.
    apply elem_of_seqZ in Hh. lia.
Qed.

Lemma hosts_of_unfold (addr len : Z) (net : IPv4Network) :
  ip_network addr len = inr net →
  hosts_of addr len = string_from_ip_int <$> hosts net.
Proof. unfold hosts_of. by intros ->. Qed.

(** No address occurs twice in the host list of line 60. *)
Lemma hosts_of_NoDup (addr len : Z) : NoDup (hosts_of addr len).
Proof.
  unfold hosts_of. destruct (ip_network addr len) as [e|net] eqn:Hnet.
  - apply NoDup_nil_2.
  - destruct (ip_network_hosts _ _ _ Hnet) as [Hnd Hrange].
    rewrite Forall_forall in Hrange.
    apply NoDup_fmap_2_strong; [|done].
    intros a b Ha Hb. apply string_from_ip_int_inj; auto.
Qed.

End Hosts.

(** ** A whole sweep *)

Ltac unfold_monad :=
  unfold mbind, M_bind, mret, M_ret, raise, try_except, logging in *.

Section Sweep.

Context (system : string) (subprocess_run : list string → exn + Z).
Context (as_completed : list Future → list Future).

(** [as_completed] yields every future it is given, each of them once. *)
Hypothesis as_completed_once : ∀ fs, as_completed fs ≡ₚ fs.

Local Abbreviation command t := (λ ip, get_ping_command system ip t).
Local Abbreviation outcome := (future_outcome system subprocess_run).
Local Abbreviation record := (recorded system subprocess_run).

Lemma submit_unfold executor ip timeout_ms w :
  submit system subprocess_run executor ip timeout_ms w
  = (inr (mkFuture (submitted executor) (outcome ip timeout_ms),
          mkExecutor (max_workers executor) (S (submitted executor))),
     mkWorld (invoked w ++ [command timeout_ms ip]) (log w)).
Proof.
  unfold submit, future_outcome. by rewrite !ping_once_unfold.
Qed.


Lemma entries_recorded k hosts timeout_ms :
  (λ p : Future * string, (p.2, up_of p.1))
    <$> entries system subprocess_run k hosts timeout_ms
  = record timeout_ms <$> hosts.
Proof. revert k. induction hosts as [|ip rest IH]; intros k; simpl; by f_equal. Qed.

(** The comprehension of line 66 never raises; it starts one probe per host,
    in order, and the dictionary it builds has one entry per host. *)
Lemma submit_all_spec timeout_ms hosts :
  ∀ executor (future_to_ip : gmap Future string) w,
    (∀ f, is_Some (future_to_ip !! f) → fut_id f < submitted executor) →
    ∃ d, submit_all system subprocess_run executor hosts timeout_ms future_to_ip w
         = (inr d, mkWorld (invoked w ++ (command timeout_ms <$> hosts)) (log w))
       ∧ map_to_list d
         ≡ₚ entries system subprocess_run (submitted executor) hosts timeout_ms
            ++ map_to_list future_to_ip.
Proof.
  induction hosts as [|ip rest IH]; intros executor d w Hfresh; simpl.
  - exists d. split; [|done]. unfold_monad. destruct w; simpl. by rewrite app_nil_r.
  - unfold mbind, M_bind. rewrite submit_unfold.
    set (f0 := mkFuture (submitted executor) (outcome ip timeout_ms)).
    assert (d !! f0 = None) as Hnone.
    { destruct (d !! f0) eqn:E; [|done].
      specialize (Hfresh f0 (mk_is_Some _ _ E)). simpl in Hfresh. lia. }
    edestruct (IH (mkExecutor (max_workers executor) (S (submitted executor)))
                 (<[f0 := ip]> d)) as (d' & Heq & Hperm).
    { intros f Hf. simpl. destruct (decide (f = f0)) as [->|Hne]; [simpl; lia|].
      rewrite lookup_insert_ne in Hf by done. specialize (Hfresh f Hf). lia. }
    exists d'. split.
    + rewrite Heq. simpl. by rewrite <- app_assoc.
    + rewrite Hperm. simpl. rewrite map_to_list_insert by done.
      by rewrite Permutation_middle.
Qed.

(** The loop of lines 67 to 79 over futures that are keys of the dictionary:
    it never raises, starts no probe, and appends one pair per future. *)
Lemma collect_spec (future_to_ip : gmap Future string) quiet futures :
  ∀ results w,
    (∀ f, f ∈ futures → is_Some (future_to_ip !! f)) →
    ∃ w', collect future_to_ip quiet futures results w
          = (inr (results ++ ((λ f, (future_to_ip !!! f, up_of f)) <$> futures)), w')
        ∧ invoked w' = invoked w.
Proof.
  induction futures as [|f rest IH]; intros results w Hkeys; simpl.
  - exists w. unfold_monad. by rewrite app_nil_r.
  - destruct (Hkeys f) as [ip Hip]; [left|].
    unfold getitem. rewrite Hip. rewrite (lookup_total_correct _ _ _ Hip).
    assert (∀ g, g ∈ rest → is_Some (future_to_ip !! g)) as Hrest.
    { intros g Hg. apply Hkeys. by right. }
    unfold result, up_of in *. unfold_monad.
    destruct (fut_outcome f) as [e|up]; simpl;
      [destruct quiet | destruct quiet; [|destruct up]]; simpl;
      (match goal with
       | |- context [collect _ _ _ ?r ?w0] =>
           destruct (IH r w0 Hrest) as (w' & Heq & Hinv)
       end;
       rewrite Heq, <- app_assoc; simpl; eauto).
Qed.

(** A sweep of a well-formed network with a positive number of threads
    returns; it records the pair of every host, in the order [as_completed]
    decides, and starts the probes of the hosts, one each. *)
Lemma sweep_network_spec addr len threads timeout_ms quiet w net :
  ipaddress.ip_network addr len = inr net →
  (0 < threads)%Z →
  ∃ results w',
    sweep_network system subprocess_run as_completed
      addr len threads timeout_ms quiet w = (inr results, w')
    ∧ results ≡ₚ record timeout_ms <$> hosts_of addr len
    ∧ invoked w' = invoked w ++ (command timeout_ms <$> hosts_of addr len).
Proof.
  intros Hnet Hthreads. unfold sweep_network. rewrite Hnet.
  rewrite <- (hosts_of_unfold _ _ _ Hnet).
  unfold new_executor. rewrite decide_False by lia. unfold_monad. simpl.
  match goal with
  | |- context [submit_all _ _ ?ex ?hs _ ?d0 ?w0] =>
      destruct (submit_all_spec timeout_ms hs ex d0 w0) as (d & Heq & Hperm)
  end.
  { intros f [ip Hf]. by rewrite lookup_empty in Hf. }
  rewrite Heq. rewrite map_to_list_empty, app_nil_r in Hperm.
  match goal with
  | |- context [collect _ _ ?fs ?r ?w0] =>
      destruct (collect_spec d quiet fs r w0) as (w' & Hc & Hinv)
  end.
  { intros f Hf. rewrite as_completed_once in Hf. unfold keys in Hf.
    apply list_elem_of_fmap in Hf as ([f' ip] & -> & Hin).
    apply elem_of_map_to_list in Hin. simpl. eauto. }
  eexists _, _. split; [exact Hc|]. split; [|by rewrite Hinv].
  simpl. rewrite as_completed_once. unfold keys. rewrite <- list_fmap_compose.
  rewrite <- (entries_recorded 0), <- Hperm.
  apply reflexive_eq, Forall_fmap_ext, Forall_forall.
  intros [f ip] Hin. apply elem_of_map_to_list in Hin. simpl.
  by rewrite (lookup_total_correct _ _ _ Hin).
Qed.

End Sweep.

(** ** Counting *)

Lemma up_count_length (results : list (string * bool)) :
  up_count results = length (filter (λ r, r.2 = true) results).
Proof.
  unfold up_count. generalize (filter (λ r : string * bool, r.2 = true) results).
  intros l. induction l as [|r l IH]; [done|]. rewrite fmap_cons. simpl. by f_equal.
Qed.

Lemma up_count_outcome (results : list (string * bool)) :
  up_count results = count_outcome Up results.
Proof.
  rewrite up_count_length. unfold count_outcome.
  induction results as [|[ip []] l IH]; [done|..].
  - rewrite !filter_cons_True by done. simpl. congruence.
  - rewrite !filter_cons_False by done. done.
Qed.

Lemma count_outcome_perm o (r1 r2 : list (string * bool)) :
  r1 ≡ₚ r2 → count_outcome o r1 = count_outcome o r2.
Proof. intros H. unfold count_outcome. by rewrite H. Qed.

Lemma up_count_perm (r1 r2 : list (string * bool)) :
  r1 ≡ₚ r2 → up_count r1 = up_count r2.
Proof. rewrite !up_count_outcome. apply count_outcome_perm. Qed.

Lemma total_perm (r1 r2 : list (string * bool)) :
  r1 ≡ₚ r2 → total r1 = total r2.
Proof. apply Permutation_length. Qed.

Lemma counts_total_up_down (results : list (string * bool)) :
  up_count results + down_count results = total results.
Proof.
  rewrite up_count_outcome. unfold down_count, count_outcome, total.
  induction results as [|[ip []] l IH]; [done|..].
  - rewrite filter_cons_True, filter_cons_False by done. simpl. lia.
  - rewrite filter_cons_False, filter_cons_True by done. simpl. lia.
Qed.

(** ** The program *)

Section Main.

Context (system : string) (subprocess_run : list string → exn + Z).
Context (as_completed : list Future → list Future).
Hypothesis as_completed_once : ∀ fs, as_completed fs ≡ₚ fs.

Local Abbreviation command t := (λ ip, get_ping_command system ip t).

Lemma ip_network_raises addr len e :
  ipaddress.ip_network addr len = inl e → ∃ msg, e = ValueError msg.
Proof. unfold ipaddress.ip_network. repeat case_decide; intros [= <-]; eauto. Qed.

(** On a well-formed network [main] ends with status 0 after reporting the
    counts of the result list. *)
Lemma main_completes args w net :
  ipaddress.ip_network (arg_address args) (arg_prefixlen args) = inr net →
  ∃ results w',
    sweep_network system subprocess_run as_completed
      (arg_address args) (arg_prefixlen args)
      (Z.max 1 (arg_threads args)) (Z.max 1 (arg_timeout args)) (arg_quiet args) w
    = (inr results, w')
    ∧ main system subprocess_run as_completed args w
      = (0%Z, mkWorld (invoked w')
                (log w' ++ [ScanFinished (up_count results) (total results)]))
    ∧ invoked w'
      = invoked w ++ (command (Z.max 1 (arg_timeout args))
                        <$> hosts_of (arg_address args) (arg_prefixlen args)).
Proof.
  intros Hnet.
  destruct (sweep_network_spec system subprocess_run as_completed as_completed_once
              (arg_address args) (arg_prefixlen args) (Z.max 1 (arg_threads args))
              (Z.max 1 (arg_timeout args)) (arg_quiet args) w net Hnet)
    as (results & w' & Heq & _ & Hinv); [lia|].
  exists results, w'. unfold main. by rewrite Heq.
Qed.

Lemma main_refuses args w e :
  ipaddress.ip_network (arg_address args) (arg_prefixlen args) = inl e →
  main system subprocess_run as_completed args w = (1%Z, w).
Proof.
  intros Hnet. destruct (ip_network_raises _ _ _ Hnet) as [msg ->].
  unfold main, sweep_network. by rewrite Hnet.
Qed.

(** The commands a run of [main] hands to [subprocess.run]. *)
Lemma main_invoked args w :
  invoked (main system subprocess_run as_completed args w).2
  = invoked w ++ (command (Z.max 1 (arg_timeout args))
                    <$> hosts_of (arg_address args) (arg_prefixlen args)).
Proof.
  destruct (ipaddress.ip_network (arg_address args) (arg_prefixlen args))
    as [e|net] eqn:Hnet.
  - rewrite (main_refuses _ _ _ Hnet). unfold hosts_of. rewrite Hnet. simpl.
    by rewrite app_nil_r.
  - destruct (main_completes args w net Hnet) as (r & w' & _ & -> & ->). done.
Qed.

Lemma timeout_argument ip timeout_ms :
  (1 ≤ timeout_ms)%Z →
  ∃ n, (1 ≤ n)%Z ∧ command timeout_ms ip !! 4 = Some (str_int n)
       ∧ (timeout_ms = 1%Z → n = 1%Z).
Proof.
  intros Ht. unfold get_ping_command. case_decide; simpl.
  - exists timeout_ms. done.
  - exists (Z.max 1 ((timeout_ms + 999) / 1000)). split; [lia|]. split; [done|].
    intros ->. reflexivity.
Qed.

End Main.

(** ** Claims about a sweep *)

Lemma in_order_once fs : Scenario.in_order fs ≡ₚ fs.
Proof. reflexivity. Qed.

Lemma backwards_once fs : Scenario.backwards fs ≡ₚ fs.
Proof. apply reverse_Permutation. Qed.

Lemma recorded_addresses system subprocess_run timeout_ms hosts :
  (recorded system subprocess_run timeout_ms <$> hosts).*1 = hosts.
Proof. rewrite <- list_fmap_compose. apply list_fmap_id. Qed.

Lemma recorded_decide system subprocess_run timeout_ms ip :
  recorded system subprocess_run timeout_ms ip
  = (ip, bool_decide (subprocess_run (get_ping_command system ip timeout_ms)
                      = inr 0%Z)).
Proof.
  pose proof (recorded_up system subprocess_run ip timeout_ms) as H.
  unfold recorded in *. simpl in *. f_equal.
  case_bool_decide as Hd.
  - by apply H.
  - destruct (up_of _); [|done]. destruct Hd. by apply H.
Qed.

(** C2: a sweep of a network with [k] usable hosts returns [k] pairs; the
    addresses of the pairs are the hosts of the network, none missing and
    none twice, and one probe is started per host. *)
Theorem sweep_records_each_host_once
    (system : string) (subprocess_run : list string → exn + Z)
    (as_completed : list Future → list Future)
    (addr len : Z) (net : ipaddress.IPv4Network)
    (threads timeout_ms : Z) (quiet : bool) (w : World) :
  (∀ fs, as_completed fs ≡ₚ fs) →
  ipaddress.ip_network addr len = inr net →
  (0 < threads)%Z →
  ∃ results w',
    sweep_network system subprocess_run as_completed
      addr len threads timeout_ms quiet w = (inr results, w')
    ∧ length results = length (ipaddress.hosts net)
    ∧ results.*1 ≡ₚ hosts_of addr len
    ∧ NoDup results.*1
    ∧ invoked w'
      = invoked w ++ ((λ ip, get_ping_command system ip timeout_ms)
                        <$> hosts_of addr len)
    ∧ NoDup (hosts_of addr len).
Proof.
  intros Hac Hnet Hthreads.
  destruct (sweep_network_spec system subprocess_run as_completed Hac
              addr len threads timeout_ms quiet w net Hnet Hthreads)
    as (results & w' & Heq & Hperm & Hinv).
  assert (results.*1 ≡ₚ hosts_of addr len) as Haddr.
  { by rewrite Hperm, recorded_addresses. }
  exists results, w'. split; [done|]. split.
  { rewrite Hperm, length_fmap, (hosts_of_unfold _ _ _ Hnet). apply length_fmap. }
  split; [done|]. split; [|split; [done|apply hosts_of_NoDup]].
  rewrite Haddr. apply hosts_of_NoDup.
Qed.

Lemma sweep_records_each_host_once_witness :
  ∃ results w',
    sweep_network "Linux" Scenario.one_answers Scenario.backwards
      Scenario.ten 30 32 300 false world0 = (inr results, w')
    ∧ length results = length (ipaddress.hosts Scenario.net30)
    ∧ results.*1 ≡ₚ hosts_of Scenario.ten 30
    ∧ NoDup results.*1
    ∧ invoked w'
      = invoked world0 ++ ((λ ip, get_ping_command "Linux" ip 300)
                             <$> hosts_of Scenario.ten 30)
    ∧ NoDup (hosts_of Scenario.ten 30).
Proof.
  apply (sweep_records_each_host_once "Linux" Scenario.one_answers
           Scenario.backwards Scenario.ten 30 Scenario.net30 32 300 false world0).
  - apply backwards_once.
  - vm_compute. reflexivity.
  - lia.
Defined.

Lemma elem_of_recorded system subprocess_run timeout_ms (hosts : list string) ip up :
  (ip, up) ∈ recorded system subprocess_run timeout_ms <$> hosts
  ↔ ip ∈ hosts
    ∧ up = bool_decide (subprocess_run (get_ping_command system ip timeout_ms)
                        = inr 0%Z).
Proof.
  rewrite list_elem_of_fmap. split.
  - intros (ip' & Heq & Hin). rewrite recorded_decide in Heq.
    injection Heq as -> ->. done.
  - intros [Hin ->]. exists ip. by rewrite recorded_decide.
Qed.

(** C5: whatever the probes do (a host that does not answer, a process that
    fails in any way), the sweep returns its result list and raises nothing;
    each host is recorded as up exactly when its own probe ended with return
    code 0, and as down otherwise; and the pair recorded for a host is the
    same in every environment that treats that host's probe alike, whatever
    happens to the probes of the other hosts. *)
Theorem probe_failures_stay_local
    (system : string) (subprocess_run subprocess_run' : list string → exn + Z)
    (as_completed as_completed' : list Future → list Future)
    (addr len : Z) (net : ipaddress.IPv4Network)
    (threads timeout_ms : Z) (quiet : bool) (w : World) :
  (∀ fs, as_completed fs ≡ₚ fs) →
  (∀ fs, as_completed' fs ≡ₚ fs) →
  ipaddress.ip_network addr len = inr net →
  (0 < threads)%Z →
  ∃ results w1 results' w2,
    sweep_network system subprocess_run as_completed
      addr len threads timeout_ms quiet w = (inr results, w1)
    ∧ sweep_network system subprocess_run' as_completed'
        addr len threads timeout_ms quiet w = (inr results', w2)
    ∧ (∀ ip up,
         (ip, up) ∈ results
         ↔ ip ∈ hosts_of addr len
           ∧ up = bool_decide
                    (subprocess_run (get_ping_command system ip timeout_ms)
                     = inr 0%Z))
    ∧ (∀ ip,
         subprocess_run (get_ping_command system ip timeout_ms)
         = subprocess_run' (get_ping_command system ip timeout_ms) →
         ∀ up, (ip, up) ∈ results ↔ (ip, up) ∈ results').
Proof.
  intros Hac Hac' Hnet Hthreads.
  destruct (sweep_network_spec system subprocess_run as_completed Hac
              addr len threads timeout_ms quiet w net Hnet Hthreads)
    as (r & w1 & Heq & Hperm & _).
  destruct (sweep_network_spec system subprocess_run' as_completed' Hac'
              addr len threads timeout_ms quiet w net Hnet Hthreads)
    as (r' & w2 & Heq' & Hperm' & _).
  exists r, w1, r', w2. split; [done|]. split; [done|]. split.
  - intros ip up. rewrite Hperm. apply elem_of_recorded.
  - intros ip Hsame up. rewrite Hperm, Hperm', !elem_of_recorded.
    by rewrite Hsame.
Qed.

Lemma probe_failures_stay_local_witness :
  ∃ results w1 results' w2,
    sweep_network "Linux" Scenario.one_answers Scenario.in_order
      Scenario.ten 30 32 300 false world0 = (inr results, w1)
    ∧ sweep_network "Linux" Scenario.all_answer Scenario.backwards
        Scenario.ten 30 32 300 false world0 = (inr results', w2)
    ∧ (∀ ip up,
         (ip, up) ∈ results
         ↔ ip ∈ hosts_of Scenario.ten 30
           ∧ up = bool_decide
                    (Scenario.one_answers (get_ping_command "Linux" ip 300)
                     = inr 0%Z))
    ∧ (∀ ip,
         Scenario.one_answers (get_ping_command "Linux" ip 300)
         = Scenario.all_answer (get_ping_command "Linux" ip 300) →
         ∀ up, (ip, up) ∈ results ↔ (ip, up) ∈ results').
Proof.
  apply (probe_failures_stay_local "Linux" Scenario.one_answers
           Scenario.all_answer Scenario.in_order Scenario.backwards
           Scenario.ten 30 Scenario.net30 32 300 false world0).
  - intros fs. reflexivity.
  - apply backwards_once.
  - vm_compute. reflexivity.
  - lia.
Defined.

(** C9: two sweeps of the same network in the same environment report the
    same numbers of hosts up, hosts down and hosts in total, in whatever
    order the probes complete in either run. *)
Theorem counts_do_not_depend_on_completion_order
    (system : string) (subprocess_run : list string → exn + Z)
    (as_completed as_completed' : list Future → list Future)
    (addr len : Z) (net : ipaddress.IPv4Network)
    (threads timeout_ms : Z) (quiet : bool) (w w' : World) :
  (∀ fs, as_completed fs ≡ₚ fs) →
  (∀ fs, as_completed' fs ≡ₚ fs) →
  ipaddress.ip_network addr len = inr net →
  (0 < threads)%Z →
  ∃ results w1 results' w2,
    sweep_network system subprocess_run as_completed
      addr len threads timeout_ms quiet w = (inr results, w1)
    ∧ sweep_network system subprocess_run as_completed'
        addr len threads timeout_ms quiet w' = (inr results', w2)
    ∧ up_count results = up_count results'
    ∧ down_count results = down_count results'
    ∧ total results = total results'.
Proof.
  intros Hac Hac' Hnet Hthreads.
  destruct (sweep_network_spec system subprocess_run as_completed Hac
              addr len threads timeout_ms quiet w net Hnet Hthreads)
    as (r & w1 & Heq & Hperm & _).
  destruct (sweep_network_spec system subprocess_run as_completed' Hac'
              addr len threads timeout_ms quiet w' net Hnet Hthreads)
    as (r' & w2 & Heq' & Hperm' & _).
  assert (r ≡ₚ r') as Hrr by (by rewrite Hperm, Hperm').
  exists r, w1, r', w2. repeat split; try done.
  - by apply up_count_perm.
  - by apply count_outcome_perm.
  - by apply total_perm.
Qed.

Lemma counts_do_not_depend_on_completion_order_witness :
  ∃ results w1 results' w2,
    sweep_network "Linux" Scenario.one_answers Scenario.in_order
      Scenario.ten 30 32 300 false world0 = (inr results, w1)
    ∧ sweep_network "Linux" Scenario.one_answers Scenario.backwards
        Scenario.ten 30 32 300 false world0 = (inr results', w2)
    ∧ up_count results = up_count results'
    ∧ down_count results = down_count results'
    ∧ total results = total results'.
Proof.
  apply (counts_do_not_depend_on_completion_order "Linux" Scenario.one_answers
           Scenario.in_order Scenario.backwards
           Scenario.ten 30 Scenario.net30 32 300 false world0 world0).
  - intros fs. reflexivity.
  - apply backwards_once.
  - vm_compute. reflexivity.
  - lia.
Defined.

(** ** Claims about the timeout *)

Lemma str_int_one : str_int 1 = "1".
Proof. reflexivity. Qed.

(** C7: a requested timeout of zero or less is replaced by 1 before the
    sweep starts, so the run is the run with [--timeout 1], and every command
    handed to the probing mechanism carries the timeout argument 1, on
    Windows (milliseconds) and elsewhere (seconds). *)
Theorem nonpositive_timeout_becomes_one
    (system : string) (subprocess_run : list string → exn + Z)
    (as_completed : list Future → list Future) (args : Args) (w : World) :
  (∀ fs, as_completed fs ≡ₚ fs) →
  (arg_timeout args ≤ 0)%Z →
  main system subprocess_run as_completed args w
  = main system subprocess_run as_completed
      (mkArgs (arg_address args) (arg_prefixlen args) (arg_threads args) 1
         (arg_quiet args)) w
  ∧ ∃ probes,
      invoked (main system subprocess_run as_completed args w).2
      = invoked w ++ probes
      ∧ length probes = length (hosts_of (arg_address args) (arg_prefixlen args))
      ∧ ∀ cmd, cmd ∈ probes → cmd !! 4 = Some "1".
Proof.
  intros Hac Ht. split.
  - unfold main. simpl. by replace (Z.max 1 (arg_timeout args)) with 1%Z by lia.
  - rewrite (main_invoked system subprocess_run as_completed Hac).
    replace (Z.max 1 (arg_timeout args)) with 1%Z by lia.
    eexists. split; [done|]. split; [by rewrite length_fmap|].
    intros cmd (ip & -> & _)%list_elem_of_fmap.
    destruct (timeout_argument system ip 1) as (n & _ & -> & Hn); [lia|].
    by rewrite Hn.
Qed.

Lemma nonpositive_timeout_becomes_one_witness :
  main "Linux" Scenario.all_answer Scenario.backwards Scenario.args30_timeout0 world0
  = main "Linux" Scenario.all_answer Scenario.backwards
      (mkArgs Scenario.ten 30 32 1 false) world0
  ∧ ∃ probes,
      invoked (main "Linux" Scenario.all_answer Scenario.backwards
                 Scenario.args30_timeout0 world0).2
      = invoked world0 ++ probes
      ∧ length probes = length (hosts_of Scenario.ten 30)
      ∧ ∀ cmd, cmd ∈ probes → cmd !! 4 = Some "1".
Proof.
  apply (nonpositive_timeout_becomes_one "Linux" Scenario.all_answer
           Scenario.backwards Scenario.args30_timeout0 world0).
  - apply backwards_once.
  - simpl. lia.
Defined.

(** ** Claims about particular networks *)

Lemma hosts_of_slash32 : hosts_of Scenario.ten 32 = ["10.0.0.0"].
Proof. vm_compute. reflexivity. Qed.

(** C4, as stated, fails: the sweep of 10.0.0.0/32 where every host answers
    does not end with a total of 0 and no probe; its host list holds the
    address 10.0.0.0. *)
Lemma slash32_is_not_empty :
  hosts_of Scenario.ten 32 = ["10.0.0.0"]
  ∧ ¬ ∃ results w',
        sweep_network "Linux" Scenario.all_answer Scenario.in_order
          Scenario.ten 32 32 300 false world0 = (inr results, w')
        ∧ total results = 0 ∧ up_count results = 0 ∧ down_count results = 0
        ∧ invoked w' = [].
Proof.
  split; [apply hosts_of_slash32|].
  intros (results & w' & Heq & Htotal & _).
  vm_compute in Heq. injection Heq as <- _. discriminate.
Qed.

(** C4, amended: the network 10.0.0.0/32 has one usable host, the address
    10.0.0.0 itself; its sweep returns one pair, so total is 1 and the counts
    of up and down add up to 1, and exactly one probe is started. *)
Theorem slash32_sweeps_its_address
    (system : string) (subprocess_run : list string → exn + Z)
    (as_completed : list Future → list Future)
    (threads timeout_ms : Z) (quiet : bool) (w : World) :
  (∀ fs, as_completed fs ≡ₚ fs) →
  (0 < threads)%Z →
  ∃ up w',
    sweep_network system subprocess_run as_completed
      Scenario.ten 32 threads timeout_ms quiet w = (inr [("10.0.0.0", up)], w')
    ∧ total [("10.0.0.0", up)] = 1
    ∧ up_count [("10.0.0.0", up)] + down_count [("10.0.0.0", up)] = 1
    ∧ invoked w' = invoked w ++ [get_ping_command system "10.0.0.0" timeout_ms].
Proof.
  intros Hac Hthreads.
  destruct (sweep_network_spec system subprocess_run as_completed Hac
              Scenario.ten 32 threads timeout_ms quiet w Scenario.net32)
    as (results & w' & Heq & Hperm & Hinv); [by vm_compute|done|].
  rewrite hosts_of_slash32 in Hperm, Hinv. simpl in Hperm, Hinv.
  apply Permutation_singleton_r in Hperm. subst results.
  rewrite recorded_decide in Heq.
  eexists _, w'. split; [exact Heq|]. split; [done|]. split; [|done].
  pose proof (counts_total_up_down [("10.0.0.0", bool_decide
    (subprocess_run (get_ping_command system "10.0.0.0" timeout_ms) = inr 0%Z))]).
  unfold total in *. simpl in *. lia.
Qed.

Lemma slash32_sweeps_its_address_witness :
  ∃ up w',
    sweep_network "Windows" Scenario.one_answers Scenario.backwards
      Scenario.ten 32 32 300 true world0 = (inr [("10.0.0.0", up)], w')
    ∧ total [("10.0.0.0", up)] = 1
    ∧ up_count [("10.0.0.0", up)] + down_count [("10.0.0.0", up)] = 1
    ∧ invoked w' = invoked world0 ++ [get_ping_command "Windows" "10.0.0.0" 300].
Proof.
  apply (slash32_sweeps_its_address "Windows" Scenario.one_answers
           Scenario.backwards 32 300 true world0).
  - apply backwards_once.
  - lia.
Defined.

(** The scenario of the spec: in 10.0.0.0/30 the host 10.0.0.1 answers and
    10.0.0.2 does not; one host is counted up, one down, two in total. *)
Example sweep_slash30 :
  main "Linux" Scenario.one_answers Scenario.backwards Scenario.args30 world0
  = (0%Z,
     mkWorld
       [ ["ping"; "-c"; "1"; "-W"; "1"; "10.0.0.1"];
         ["ping"; "-c"; "1"; "-W"; "1"; "10.0.0.2"] ]
       [ StartingSweep 2 32; IsDown "10.0.0.2"; IsUp "10.0.0.1";
         ScanFinished 1 2 ]).
Proof. vm_compute. reflexivity. Qed.

(** C1, where the code departs from the claim: on a system without a [ping]
    binary the sweep of 10.0.0.0/30 does not abort.  [sweep_network] returns
    a result list in which both hosts are down, the [RuntimeError] of each
    probe is logged as an error for its host and goes no further, [main] logs
    no critical record, reports 0 of 2 hosts up and ends with status 0. *)
Theorem missing_ping_marks_every_host_down :
  (sweep_network "Linux" Scenario.ping_missing Scenario.in_order
     Scenario.ten 30 32 300 false world0).1
  = inr [("10.0.0.1", false); ("10.0.0.2", false)]
  ∧ main "Linux" Scenario.ping_missing Scenario.in_order Scenario.args30 world0
    = (0%Z,
       mkWorld
         [ ["ping"; "-c"; "1"; "-W"; "1"; "10.0.0.1"];
           ["ping"; "-c"; "1"; "-W"; "1"; "10.0.0.2"] ]
         [ StartingSweep 2 32;
           ErrorPinging "10.0.0.1"
             (RuntimeError "'ping' command not found on this system");
           IsDown "10.0.0.1";
           ErrorPinging "10.0.0.2"
             (RuntimeError "'ping' command not found on this system");
           IsDown "10.0.0.2";
           ScanFinished 0 2 ]).
Proof. split; vm_compute; reflexivity. Qed.

(** ** The bound on running probes *)

Section PoolInvariant.

Import Pool.

Context (max_workers : Z).

Lemma adjust_thread_count_bounded s :
  bounded max_workers s → bounded max_workers (adjust_thread_count max_workers s).
Proof.
  unfold bounded, adjust_thread_count. intros H.
  destruct (idle_semaphore s); [|done].
  case_decide; [|done]. simpl. rewrite length_app. simpl. lia.
Qed.

Lemma step_bounded e s s' :
  step max_workers e s = Some s' → bounded max_workers s → bounded max_workers s'.
Proof.
  destruct e as [|i|i]; simpl.
  - destruct (pending s) as [|ip rest]; [done|]. intros [= <-] H.
    by apply adjust_thread_count_bounded.
  - destruct (threads s !! i) as [[|]|]; try done.
    destruct (work_queue s); [done|]. intros [= <-].
    unfold bounded. simpl. by rewrite length_insert.
  - destruct (threads s !! i) as [[|]|]; try done. intros [= <-].
    unfold bounded. simpl. by rewrite length_insert.
Qed.

Lemma exec_bounded schedule : ∀ s s',
  exec max_workers schedule s = Some s' →
  bounded max_workers s → bounded max_workers s'.
Proof.
  induction schedule as [|e rest IH]; intros s s'; simpl.
  - by intros [= <-].
  - destruct (step max_workers e s) as [s1|] eqn:Hstep; [|done].
    intros Hexec Hb. eapply IH; [done|]. by eapply step_bounded.
Qed.

Lemma in_flight_threads s : in_flight s ≤ length (threads s).
Proof. apply length_filter. Qed.

Lemma all_running (ws : list Worker) :
  length (filter (λ w, is_running w = true) ws) = length ws →
  ∀ i, ws !! i ≠ Some Waiting.
Proof.
  induction ws as [|w ws IH]; intros Hlen i; [done|].
  destruct w as [|ip].
  - rewrite filter_cons_False in Hlen by done.
    pose proof (length_filter (λ w, is_running w = true) ws). simpl in Hlen. lia.
  - rewrite filter_cons_True in Hlen by done. simpl in Hlen.
    destruct i as [|i]; [done|]. simpl. apply IH. lia.
Qed.

(** Finishing a probe frees one slot. *)
Lemma in_flight_done (ws : list Worker) i ip :
  ws !! i = Some (Running ip) →
  S (length (filter (λ w, is_running w = true) (<[i := Waiting]> ws)))
  = length (filter (λ w, is_running w = true) ws).
Proof.
  revert i. induction ws as [|w ws IH]; intros [|i] Hi; try done; simpl in *.
  - injection Hi as ->.
    rewrite filter_cons_False, filter_cons_True by done. done.
  - destruct w.
    + rewrite !filter_cons_False by done. by apply IH.
    + rewrite !filter_cons_True by done. simpl. f_equal. by apply IH.
Qed.

Lemma in_flight_running_ips s : in_flight s = length (running_ips (threads s)).
Proof.
  unfold in_flight, running_ips. induction (threads s) as [|[|ip] ws IH]; [done|..].
  - by rewrite filter_cons_False by done.
  - rewrite filter_cons_True by done. simpl. by f_equal.
Qed.

Lemma running_ips_get (ws : list Worker) i ip :
  ws !! i = Some Waiting →
  running_ips (<[i := Running ip]> ws) ≡ₚ ip :: running_ips ws.
Proof.
  revert i. induction ws as [|w ws IH]; intros [|i] Hi; try done; simpl in *.
  - by injection Hi as ->.
  - destruct w as [|ip']; simpl.
    + by apply IH.
    + rewrite (IH i Hi). apply perm_swap.
Qed.

Lemma running_ips_done (ws : list Worker) i ip :
  ws !! i = Some (Running ip) →
  running_ips ws ≡ₚ ip :: running_ips (<[i := Waiting]> ws).
Proof.
  revert i. induction ws as [|w ws IH]; intros [|i] Hi; try done; simpl in *.
  - by injection Hi as ->.
  - destruct w as [|ip']; simpl.
    + by apply IH.
    + rewrite (IH i Hi). apply perm_swap.
Qed.

Lemma adjust_thread_count_tasks s :
  tasks (adjust_thread_count max_workers s) = tasks s.
Proof.
  unfold adjust_thread_count, tasks.
  destruct (idle_semaphore s); [|done]. case_decide; [|done]. simpl.
  unfold running_ips. by rewrite omap_app, app_nil_r.
Qed.

(** No step loses a host or makes one up. *)
Lemma step_tasks e s s' :
  step max_workers e s = Some s' → tasks s' ≡ₚ tasks s.
Proof.
  destruct e as [|i|i]; simpl.
  - destruct (pending s) as [|ip rest] eqn:Hp; [done|]. intros [= <-].
    rewrite adjust_thread_count_tasks. unfold tasks. simpl. rewrite Hp.
    by rewrite <- (assoc_L (++)).
  - destruct (threads s !! i) as [[|]|] eqn:Hi; try done.
    destruct (work_queue s) as [|ip queue] eqn:Hq; [done|]. intros [= <-].
    unfold tasks. simpl. rewrite Hq, (running_ips_get _ _ _ Hi).
    apply Permutation_app_head. simpl. by rewrite Permutation_middle.
  - destruct (threads s !! i) as [[|ip]|] eqn:Hi; try done. intros [= <-].
    unfold tasks. simpl. rewrite (running_ips_done _ _ _ Hi).
    rewrite <- (assoc_L (++)). simpl. by rewrite Permutation_middle.
Qed.

Lemma exec_tasks schedule : ∀ s s',
  exec max_workers schedule s = Some s' → tasks s' ≡ₚ tasks s.
Proof.
  induction schedule as [|e rest IH]; intros s s'; simpl.
  - by intros [= <-].
  - destruct (step max_workers e s) as [s1|] eqn:Hstep; [|done].
    intros Hexec. rewrite (IH _ _ Hexec). by eapply step_tasks.
Qed.

(** When a run has drained the pool, every host has completed exactly once:
    this is what [as_completed] has to hand back. *)
Lemma drained_pool_completed_once hosts schedule s :
  exec max_workers schedule (init hosts) = Some s →
  pending s = [] → work_queue s = [] → in_flight s = 0 →
  completed s ≡ₚ hosts.
Proof.
  intros Hexec Hp Hq Hr. apply exec_tasks in Hexec.
  rewrite in_flight_running_ips in Hr. apply nil_length_inv in Hr.
  unfold tasks in Hexec. simpl in Hexec.
  by rewrite Hp, Hq, Hr, !app_nil_r in Hexec.
Qed.

(** The serial schedule runs every host to completion. *)
Lemma serial_warm hosts : ∀ done_so_far,
  (0 < max_workers)%Z →
  exec max_workers (serial hosts) (mkState hosts [] [Waiting] 1 done_so_far)
  = Some (mkState [] [] [Waiting] 1 (done_so_far ++ hosts)).
Proof.
  induction hosts as [|ip rest IH]; intros acc Hpos; simpl.
  - by rewrite app_nil_r.
  - rewrite IH by done. by rewrite <- app_assoc.
Qed.

Lemma serial_completes hosts :
  (0 < max_workers)%Z →
  ∃ s, exec max_workers (serial hosts) (init hosts) = Some s
       ∧ pending s = [] ∧ work_queue s = [] ∧ in_flight s = 0
       ∧ completed s = hosts.
Proof.
  intros Hpos. destruct hosts as [|ip rest].
  - by exists (init []).
  - exists (mkState [] [] [Waiting] 1 (ip :: rest)). split; [|done].
    simpl. unfold adjust_thread_count. simpl.
    rewrite decide_True by lia. simpl. by rewrite serial_warm.
Qed.

End PoolInvariant.

(** C8: in every state the pool of a run can reach, the probes that are
    executing are at most [concurrency] many; when that many are executing no
    worker can take a queued item, and a queued item can be taken by a worker
    once that worker has finished its probe, which frees one slot. *)
Theorem running_probes_bounded
    (arg_threads : Z) (hosts : list string)
    (schedule : list Pool.Event) (s : Pool.State) :
  Pool.exec (Pool.concurrency arg_threads) schedule (Pool.init hosts) = Some s →
  (Z.of_nat (Pool.in_flight s) ≤ Pool.concurrency arg_threads)%Z
  ∧ (Z.of_nat (Pool.in_flight s) = Pool.concurrency arg_threads →
     ∀ i, Pool.step (Pool.concurrency arg_threads) (Pool.Get i) s = None)
  ∧ (∀ i s', Pool.step (Pool.concurrency arg_threads) (Pool.Done i) s = Some s' →
       S (Pool.in_flight s') = Pool.in_flight s
       ∧ (Pool.work_queue s' ≠ [] →
          is_Some (Pool.step (Pool.concurrency arg_threads) (Pool.Get i) s'))).
Proof.
  intros Hexec.
  assert (Pool.bounded (Pool.concurrency arg_threads) s) as Hb.
  { eapply exec_bounded; [done|]. unfold Pool.bounded, Pool.concurrency. simpl. lia. }
  pose proof (in_flight_threads s) as Hle. unfold Pool.bounded in Hb.
  split; [lia|]. split.
  - intros Hfull i. simpl.
    destruct (Pool.threads s !! i) as [[|ip]|] eqn:Hi; try done.
    exfalso. apply (all_running (Pool.threads s)) in Hi; [done|].
    unfold Pool.in_flight in *. lia.
  - intros i s'. simpl.
    destruct (Pool.threads s !! i) as [[|ip]|] eqn:Hi; try done.
    intros [= <-]. unfold Pool.in_flight. simpl. split.
    + by eapply in_flight_done.
    + intros Hq. rewrite list_lookup_insert_eq by (by eapply lookup_lt_Some).
      destruct (Pool.work_queue s); [done|]. eauto.
Qed.

Lemma running_probes_bounded_witness :
  let s := Pool.mkState [] ["10.0.0.2"] [Pool.Running "10.0.0.1"] 0 [] in
  (Z.of_nat (Pool.in_flight s) ≤ Pool.concurrency 1)%Z
  ∧ (Z.of_nat (Pool.in_flight s) = Pool.concurrency 1 →
     ∀ i, Pool.step (Pool.concurrency 1) (Pool.Get i) s = None)
  ∧ (∀ i s', Pool.step (Pool.concurrency 1) (Pool.Done i) s = Some s' →
       S (Pool.in_flight s') = Pool.in_flight s
       ∧ (Pool.work_queue s' ≠ [] →
          is_Some (Pool.step (Pool.concurrency 1) (Pool.Get i) s'))).
Proof.
  apply (running_probes_bounded 1 ["10.0.0.1"; "10.0.0.2"]
           [Pool.Submit; Pool.Get 0; Pool.Submit]).
  reflexivity.
Defined.

(** * Further properties *)

(** ** The trace of a sweep *)

Section Trace.

Context (system : string) (subprocess_run : list string → exn + Z).
Context (as_completed : list Future → list Future).
Hypothesis as_completed_once : ∀ fs, as_completed fs ≡ₚ fs.

Local Abbreviation command t := (λ ip, get_ping_command system ip t).

(** The loop of lines 67 to 79 with its log. *)
Lemma collect_trace (future_to_ip : gmap Future string) quiet futures :
  ∀ results w,
    (∀ f, f ∈ futures → is_Some (future_to_ip !! f)) →
    collect future_to_ip quiet futures results w
    = (inr (results ++ ((λ f, (future_to_ip !!! f, up_of f)) <$> futures)),
       mkWorld (invoked w)
         (log w ++ (futures ≫= λ f, host_records quiet (future_to_ip !!! f) f))).
Proof.
  induction futures as [|f rest IH]; intros results w Hkeys; simpl.
  - unfold_monad. destruct w. simpl. by rewrite !app_nil_r.
  - destruct (Hkeys f) as [ip Hip]; [left|].
    unfold getitem. rewrite Hip. rewrite (lookup_total_correct _ _ _ Hip).
    assert (∀ g, g ∈ rest → is_Some (future_to_ip !! g)) as Hrest.
    { intros g Hg. apply Hkeys. by right. }
    unfold result, up_of, host_records in *. unfold_monad.
    destruct (fut_outcome f) as [e|up]; simpl;
      [destruct quiet | destruct quiet; [|destruct up]]; simpl;
      (rewrite IH by done; simpl; by rewrite <- ?app_assoc).
Qed.

(** A sweep in full: the futures come back in some order [order], a
    rearrangement of the futures of the hosts that does not depend on
    [quiet]; the results and the log follow that order, and the log starts
    with the announcement of the sweep. *)
Lemma sweep_network_trace addr len threads timeout_ms w net :
  ipaddress.ip_network addr len = inr net →
  (0 < threads)%Z →
  ∃ order : list (Future * string),
    order ≡ₚ entries system subprocess_run 0 (hosts_of addr len) timeout_ms
    ∧ ∀ quiet,
        sweep_network system subprocess_run as_completed
          addr len threads timeout_ms quiet w
        = (inr ((λ p, (p.2, up_of p.1)) <$> order),
           mkWorld
             (invoked w ++ (command timeout_ms <$> hosts_of addr len))
             (log w ++ StartingSweep (length (hosts_of addr len)) threads
                :: (order ≫= λ p, host_records quiet p.2 p.1))).
Proof.
  intros Hnet Hthreads.
  destruct (submit_all_spec system subprocess_run timeout_ms
              (hosts_of addr len) (mkExecutor threads 0) ∅
              (mkWorld (invoked w)
                 (log w ++ [StartingSweep (length (hosts_of addr len)) threads])))
    as (d & Heq & Hperm).
  { intros f [ip Hf]. by rewrite lookup_empty in Hf. }
  rewrite map_to_list_empty, app_nil_r in Hperm. simpl in Hperm, Heq.
  assert (∀ f, f ∈ as_completed (keys d) → is_Some (d !! f)) as Hkeys.
  { intros f Hf. rewrite as_completed_once in Hf. unfold keys in Hf.
    apply list_elem_of_fmap in Hf as ([f' ip] & -> & Hin).
    apply elem_of_map_to_list in Hin. simpl. eauto. }
  exists ((λ f, (f, d !!! f)) <$> as_completed (keys d)). split.
  - rewrite as_completed_once, <- Hperm. unfold keys.
    rewrite <- list_fmap_compose.
    etrans; [|apply reflexive_eq, list_fmap_id].
    apply reflexive_eq, Forall_fmap_ext, Forall_forall.
    intros [f ip] Hin. apply elem_of_map_to_list in Hin. simpl.
    by rewrite (lookup_total_correct _ _ _ Hin).
  - intros quiet. unfold sweep_network. rewrite Hnet.
    rewrite <- (hosts_of_unfold _ _ _ Hnet).
    unfold new_executor. rewrite decide_False by lia. unfold_monad. simpl.
    rewrite Heq, collect_trace by done. simpl.
    rewrite <- list_fmap_compose. f_equal. f_equal.
    rewrite <- app_assoc. simpl. f_equal. f_equal.
    generalize (as_completed (keys d)). intros l.
    induction l as [|f l IH]; [done|].
    rewrite fmap_cons, !bind_cons. simpl. by rewrite IH.
Qed.

End Trace.

(** ** What the log says about the hosts *)

Lemma status_lines_loud (order : list (Future * string)) :
  omap status_line (order ≫= λ p, host_records false p.2 p.1)
  = (λ p, (p.2, up_of p.1)) <$> order.
Proof.
  induction order as [|[f ip] l IH]; [done|].
  rewrite bind_cons, omap_app, IH, fmap_cons. f_equal.
  unfold host_records, up_of. simpl. by destruct (fut_outcome f) as [e|[]].
Qed.

Lemma status_lines_quiet (order : list (Future * string)) :
  omap status_line (order ≫= λ p, host_records true p.2 p.1) = [].
Proof.
  induction order as [|[f ip] l IH]; [done|].
  rewrite bind_cons, omap_app, IH.
  unfold host_records. simpl. by destruct (fut_outcome f).
Qed.

Lemma error_lines quiet (order : list (Future * string)) :
  omap error_line (order ≫= λ p, host_records quiet p.2 p.1)
  = omap (λ p, match fut_outcome p.1 with
               | inl exc => Some (p.2, exc)
               | inr _ => None
               end) order.
Proof.
  induction order as [|[f ip] l IH]; [done|].
  rewrite bind_cons, omap_app, IH. unfold host_records. simpl.
  by destruct (fut_outcome f) as [e|[]], quiet.
Qed.

Lemma elem_of_entries system subprocess_run timeout_ms hosts :
  ∀ k f ip,
    (f, ip) ∈ entries system subprocess_run k hosts timeout_ms →
    ip ∈ hosts
    ∧ fut_outcome f = future_outcome system subprocess_run ip timeout_ms.
Proof.
  induction hosts as [|h rest IH]; intros k f ip; simpl.
  - by intros ?%elem_of_nil.
  - intros [[= -> ->]|Hin]%elem_of_cons.
    + split; [left|done].
    + destruct (IH _ _ _ Hin). split; [by right|done].
Qed.

Lemma entries_elem_of system subprocess_run timeout_ms hosts :
  ∀ k ip,
    ip ∈ hosts →
    ∃ f, (f, ip) ∈ entries system subprocess_run k hosts timeout_ms
         ∧ fut_outcome f = future_outcome system subprocess_run ip timeout_ms.
Proof.
  induction hosts as [|h rest IH]; intros k ip; simpl.
  - by intros ?%elem_of_nil.
  - intros [->|Hin]%elem_of_cons.
    + eexists. split; [left|]; done.
    + destruct (IH (S k) _ Hin) as (f & Hf & Hout). exists f. split; [by right|done].
Qed.

(** X1: [--quiet] changes nothing but the log.  With and without it a sweep
    returns the same result list and starts the same probes; the error
    records are the same too, only the status lines are left out. *)
Theorem quiet_changes_only_the_log
    (system : string) (subprocess_run : list string → exn + Z)
    (as_completed : list Future → list Future)
    (addr len : Z) (net : ipaddress.IPv4Network)
    (threads timeout_ms : Z) (w : World) :
  (∀ fs, as_completed fs ≡ₚ fs) →
  ipaddress.ip_network addr len = inr net →
  (0 < threads)%Z →
  let loud := sweep_network system subprocess_run as_completed
                addr len threads timeout_ms false w in
  let hushed := sweep_network system subprocess_run as_completed
                  addr len threads timeout_ms true w in
  loud.1 = hushed.1
  ∧ invoked loud.2 = invoked hushed.2
  ∧ omap error_line (log loud.2) = omap error_line (log hushed.2)
  ∧ omap status_line (log hushed.2) = omap status_line (log w).
Proof.
  intros Hac Hnet Hthreads.
  destruct (sweep_network_trace system subprocess_run as_completed Hac
              addr len threads timeout_ms w net Hnet Hthreads)
    as (order & _ & Hrun).
  simpl. rewrite !Hrun. simpl. split; [done|]. split; [done|].
  rewrite !omap_app. simpl. rewrite !error_lines, status_lines_quiet.
  by rewrite app_nil_r.
Qed.

Lemma quiet_changes_only_the_log_witness :
  let loud := sweep_network "Linux" Scenario.one_answers Scenario.backwards
                Scenario.ten 30 32 300 false world0 in
  let hushed := sweep_network "Linux" Scenario.one_answers Scenario.backwards
                  Scenario.ten 30 32 300 true world0 in
  loud.1 = hushed.1
  ∧ invoked loud.2 = invoked hushed.2
  ∧ omap error_line (log loud.2) = omap error_line (log hushed.2)
  ∧ omap status_line (log hushed.2) = omap status_line (log world0).
Proof.
  apply (quiet_changes_only_the_log "Linux" Scenario.one_answers
           Scenario.backwards Scenario.ten 30 Scenario.net30 32 300 world0).
  - apply backwards_once.
  - vm_compute. reflexivity.
  - lia.
Defined.

(** X2: without [--quiet] the status lines a sweep adds to the log, read in
    order, are its result list: one line per host, [UP] for the pairs that are
    [True] and [DOWN] for the others, in the order the futures came back. *)
Theorem status_lines_are_the_results
    (system : string) (subprocess_run : list string → exn + Z)
    (as_completed : list Future → list Future)
    (addr len : Z) (net : ipaddress.IPv4Network)
    (threads timeout_ms : Z) (w : World) :
  (∀ fs, as_completed fs ≡ₚ fs) →
  ipaddress.ip_network addr len = inr net →
  (0 < threads)%Z →
  ∃ results w' added,
    sweep_network system subprocess_run as_completed
      addr len threads timeout_ms false w = (inr results, w')
    ∧ log w' = log w ++ added
    ∧ omap status_line added = results.
Proof.
  intros Hac Hnet Hthreads.
  destruct (sweep_network_trace system subprocess_run as_completed Hac
              addr len threads timeout_ms w net Hnet Hthreads)
    as (order & _ & Hrun).
  eexists _, _, _. split; [apply Hrun|]. split; [done|].
  simpl. apply status_lines_loud.
Qed.

Lemma status_lines_are_the_results_witness :
  ∃ results w' added,
    sweep_network "Linux" Scenario.one_answers Scenario.backwards
      Scenario.ten 30 32 300 false world0 = (inr results, w')
    ∧ log w' = log world0 ++ added
    ∧ omap status_line added = results.
Proof.
  apply (status_lines_are_the_results "Linux" Scenario.one_answers
           Scenario.backwards Scenario.ten 30 Scenario.net30 32 300 world0).
  - apply backwards_once.
  - vm_compute. reflexivity.
  - lia.
Defined.

(** X3: an error record is added to the log for a host exactly when the
    probe of that host raised, and it carries the exception the probe raised;
    this holds with and without [--quiet]. *)
Theorem error_records_name_failed_probes
    (system : string) (subprocess_run : list string → exn + Z)
    (as_completed : list Future → list Future)
    (addr len : Z) (net : ipaddress.IPv4Network)
    (threads timeout_ms : Z) (quiet : bool) (w : World) :
  (∀ fs, as_completed fs ≡ₚ fs) →
  ipaddress.ip_network addr len = inr net →
  (0 < threads)%Z →
  ∃ added,
    log (sweep_network system subprocess_run as_completed
           addr len threads timeout_ms quiet w).2 = log w ++ added
    ∧ ∀ ip exc,
        (ip, exc) ∈ omap error_line added
        ↔ ip ∈ hosts_of addr len
          ∧ (ping_once system subprocess_run ip timeout_ms world0).1 = inl exc.
Proof.
  intros Hac Hnet Hthreads.
  destruct (sweep_network_trace system subprocess_run as_completed Hac
              addr len threads timeout_ms w net Hnet Hthreads)
    as (order & Hperm & Hrun).
  eexists. rewrite Hrun. split; [done|]. intros ip exc.
  simpl. rewrite error_lines, list_elem_of_omap. split.
  - intros ([f ip'] & Hin & Hsome). rewrite Hperm in Hin.
    apply elem_of_entries in Hin as [Hhost Hout]. simpl in Hsome.
    rewrite Hout in Hsome. unfold future_outcome in Hsome.
    destruct (ping_once _ _ _ _ _).1 as [e|up] eqn:Hprobe; [|done].
    by injection Hsome as <- <-.
  - intros [Hhost Hraise].
    destruct (entries_elem_of system subprocess_run timeout_ms _ 0 ip Hhost)
      as (f & Hin & Hout).
    exists (f, ip). rewrite Hperm. split; [done|]. simpl.
    rewrite Hout. unfold future_outcome. by rewrite Hraise.
Qed.

Lemma error_records_name_failed_probes_witness :
  ∃ added,
    log (sweep_network "Linux" Scenario.ping_missing Scenario.in_order
           Scenario.ten 30 32 300 true world0).2 = log world0 ++ added
    ∧ ∀ ip exc,
        (ip, exc) ∈ omap error_line added
        ↔ ip ∈ hosts_of Scenario.ten 30
          ∧ (ping_once "Linux" Scenario.ping_missing ip 300 world0).1 = inl exc.
Proof.
  apply (error_records_name_failed_probes "Linux" Scenario.ping_missing
           Scenario.in_order Scenario.ten 30 Scenario.net30 32 300 true world0).
  - intros fs. reflexivity.
  - vm_compute. reflexivity.
  - lia.
Defined.

(** ** What [main] reports *)

Lemma up_count_recorded system subprocess_run timeout_ms (hosts : list string) :
  up_count (recorded system subprocess_run timeout_ms <$> hosts)
  = length (answering system subprocess_run timeout_ms hosts).
Proof.
  rewrite up_count_length. unfold answering.
  induction hosts as [|ip rest IH]; [done|].
  rewrite fmap_cons, recorded_decide.
  destruct (decide (subprocess_run (get_ping_command system ip timeout_ms)
                    = inr 0%Z)) as [Hup|Hdown].
  - rewrite !filter_cons_True; [simpl; by f_equal|done|].
    simpl. by rewrite bool_decide_eq_true_2.
  - rewrite !filter_cons_False; [done|done|].
    simpl. by rewrite bool_decide_eq_false_2.
Qed.

Lemma host_records_per_host quiet (order : list (Future * string)) :
  Forall (λ r, is_Some (status_line r) ∨ is_Some (error_line r))
    (order ≫= λ p, host_records quiet p.2 p.1).
Proof.
  induction order as [|[f ip] l IH]; [constructor|].
  rewrite bind_cons. apply Forall_app. split; [|done].
  unfold host_records. simpl.
  destruct (fut_outcome f) as [e|[]], quiet;
    repeat (apply Forall_cons; split; [simpl; eauto|]); apply Forall_nil_2.
Qed.

(** X4: the log of a run of [main] on a well-formed network.  It opens with
    the announcement of the sweep, giving the number of hosts and the number
    of threads after clamping; only per-host records follow; it closes with
    the summary, whose total is the announced number of hosts and whose count
    of hosts up is the number of hosts whose probe ended with return code 0,
    whatever the order of completion. *)
Theorem main_log_shape
    (system : string) (subprocess_run : list string → exn + Z)
    (as_completed : list Future → list Future)
    (args : Args) (net : ipaddress.IPv4Network) (w : World) :
  (∀ fs, as_completed fs ≡ₚ fs) →
  ipaddress.ip_network (arg_address args) (arg_prefixlen args) = inr net →
  let hosts := hosts_of (arg_address args) (arg_prefixlen args) in
  let up := length (answering system subprocess_run
                      (Z.max 1 (arg_timeout args)) hosts) in
  ∃ lines,
    log (main system subprocess_run as_completed args w).2
    = log w ++ StartingSweep (length hosts) (Z.max 1 (arg_threads args))
        :: lines ++ [ScanFinished up (length hosts)]
    ∧ Forall (λ r, is_Some (status_line r) ∨ is_Some (error_line r)) lines
    ∧ up ≤ length hosts.
Proof.
  intros Hac Hnet hosts up.
  destruct (sweep_network_trace system subprocess_run as_completed Hac
              (arg_address args) (arg_prefixlen args)
              (Z.max 1 (arg_threads args)) (Z.max 1 (arg_timeout args))
              w net Hnet) as (order & Hperm & Hrun); [lia|].
  assert ((λ p : Future * string, (p.2, up_of p.1)) <$> order
          ≡ₚ recorded system subprocess_run (Z.max 1 (arg_timeout args))
               <$> hosts) as Hresults.
  { by rewrite Hperm, entries_recorded. }
  exists (order ≫= λ p, host_records (arg_quiet args) p.2 p.1).
  split; [|split].
  - unfold main. rewrite Hrun. simpl. rewrite <- app_assoc. simpl.
    rewrite (up_count_perm _ _ Hresults), (total_perm _ _ Hresults).
    rewrite up_count_recorded. unfold total. by rewrite length_fmap.
  - apply host_records_per_host.
  - subst up. unfold answering. apply length_filter.
Qed.

Lemma main_log_shape_witness :
  let hosts := hosts_of Scenario.ten 30 in
  let up := length (answering "Linux" Scenario.one_answers (Z.max 1 300) hosts) in
  ∃ lines,
    log (main "Linux" Scenario.one_answers Scenario.backwards
           Scenario.args30 world0).2
    = log world0 ++ StartingSweep (length hosts) (Z.max 1 32)
        :: lines ++ [ScanFinished up (length hosts)]
    ∧ Forall (λ r, is_Some (status_line r) ∨ is_Some (error_line r)) lines
    ∧ up ≤ length hosts.
Proof.
  apply (main_log_shape "Linux" Scenario.one_answers Scenario.backwards
           Scenario.args30 Scenario.net30 world0).
  - apply backwards_once.
  - vm_compute. reflexivity.
Defined.

(** ** Threads, refused networks, failing probes *)

(** X5: a thread count of zero or less.  Called with it, [sweep_network]
    announces the sweep and then fails with the [ValueError] of the executor,
    before any probe is started.  [main] never lets that happen: its run is
    the run with [--threads 1]. *)
Theorem nonpositive_threads
    (system : string) (subprocess_run : list string → exn + Z)
    (as_completed : list Future → list Future)
    (args : Args) (net : ipaddress.IPv4Network)
    (threads timeout_ms : Z) (quiet : bool) (w : World) :
  ipaddress.ip_network (arg_address args) (arg_prefixlen args) = inr net →
  (threads ≤ 0)%Z →
  (arg_threads args ≤ 0)%Z →
  sweep_network system subprocess_run as_completed
    (arg_address args) (arg_prefixlen args) threads timeout_ms quiet w
  = (inl (ValueError "max_workers must be greater than 0"),
     mkWorld (invoked w)
       (log w ++ [StartingSweep
                    (length (hosts_of (arg_address args) (arg_prefixlen args)))
                    threads]))
  ∧ main system subprocess_run as_completed args w
    = main system subprocess_run as_completed
        (mkArgs (arg_address args) (arg_prefixlen args) 1 (arg_timeout args)
           (arg_quiet args)) w.
Proof.
  intros Hnet Hthreads Hargs. split.
  - unfold sweep_network, hosts_of, new_executor. rewrite Hnet.
    rewrite decide_True by done. reflexivity.
  - unfold main. simpl. by replace (Z.max 1 (arg_threads args)) with 1%Z by lia.
Qed.

Lemma nonpositive_threads_witness :
  sweep_network "Linux" Scenario.all_answer Scenario.in_order
    Scenario.ten 30 0 300 false world0
  = (inl (ValueError "max_workers must be greater than 0"),
     mkWorld (invoked world0)
       (log world0 ++ [StartingSweep (length (hosts_of Scenario.ten 30)) 0]))
  ∧ main "Linux" Scenario.all_answer Scenario.in_order
      (mkArgs Scenario.ten 30 (-4) 300 false) world0
    = main "Linux" Scenario.all_answer Scenario.in_order
        (mkArgs Scenario.ten 30 1 300 false) world0.
Proof.
  apply (nonpositive_threads "Linux" Scenario.all_answer Scenario.in_order
           (mkArgs Scenario.ten 30 (-4) 300 false) Scenario.net30 0 300 false
           world0).
  - vm_compute. reflexivity.
  - lia.
  - simpl. lia.
Defined.

(** X6: a network that [ip_network] refuses (a prefix length outside 0..32 or
    an address outside 32 bits).  The [ValueError] leaves [sweep_network]
    before anything is logged or probed; it is not the [RuntimeError] that
    [main] handles, so the process ends with status 1 and [main] has written
    nothing, no critical record either. *)
Theorem refused_network_stops_before_probing
    (system : string) (subprocess_run : list string → exn + Z)
    (as_completed : list Future → list Future) (args : Args) (w : World) :
  ¬ ((0 ≤ arg_address args ≤ ipaddress.ALL_ONES)%Z
     ∧ (0 ≤ arg_prefixlen args ≤ 32)%Z) →
  (∃ msg,
     sweep_network system subprocess_run as_completed
       (arg_address args) (arg_prefixlen args)
       (Z.max 1 (arg_threads args)) (Z.max 1 (arg_timeout args))
       (arg_quiet args) w
     = (inl (ValueError msg), w))
  ∧ main system subprocess_run as_completed args w = (1%Z, w).
Proof.
  intros Hbad.
  destruct (ipaddress.ip_network (arg_address args) (arg_prefixlen args))
    as [e|net] eqn:Hnet.
  - split; [|by eapply main_refuses].
    destruct (ip_network_raises _ _ _ Hnet) as [msg ->].
    exists msg. unfold sweep_network. by rewrite Hnet.
  - exfalso. apply Hbad. unfold ipaddress.ip_network in Hnet.
    unfold ipaddress.max_prefixlen in Hnet.
    destruct (decide (0 ≤ arg_address args ≤ ipaddress.ALL_ONES)%Z);
      [|discriminate].
    destruct (decide (0 ≤ arg_prefixlen args ≤ 32)%Z); [|discriminate]. done.
Qed.

Lemma refused_network_stops_before_probing_witness :
  (∃ msg,
     sweep_network "Linux" Scenario.all_answer Scenario.in_order
       Scenario.ten 33 (Z.max 1 32) (Z.max 1 300) false world0
     = (inl (ValueError msg), world0))
  ∧ main "Linux" Scenario.all_answer Scenario.in_order
      (mkArgs Scenario.ten 33 32 300 false) world0 = (1%Z, world0).
Proof.
  apply (refused_network_stops_before_probing "Linux" Scenario.all_answer
           Scenario.in_order (mkArgs Scenario.ten 33 32 300 false) world0).
  simpl. lia.
Defined.

(** X7: what [ping_once] raises.  It raises the [RuntimeError] about the
    missing command exactly when [subprocess.run] raised [FileNotFoundError],
    passes every other exception of [subprocess.run] on unchanged, and so
    never raises [FileNotFoundError] itself; in no case does it log. *)
Theorem ping_once_raises
    (system : string) (subprocess_run : list string → exn + Z)
    (ip : string) (timeout_ms : Z) (w : World) (exc : exn) :
  let cmd := get_ping_command system ip timeout_ms in
  ((ping_once system subprocess_run ip timeout_ms w).1 = inl exc
   ↔ (subprocess_run cmd = inl FileNotFoundError
      ∧ exc = RuntimeError "'ping' command not found on this system")
     ∨ (subprocess_run cmd = inl exc ∧ exc ≠ FileNotFoundError))
  ∧ (ping_once system subprocess_run ip timeout_ms w).1 ≠ inl FileNotFoundError
  ∧ log (ping_once system subprocess_run ip timeout_ms w).2 = log w.
Proof.
  intros cmd. rewrite ping_once_unfold. simpl. fold cmd.
  repeat split.
  - destruct (subprocess_run cmd) as [[]|rc]; intros [= <-]; eauto;
      right; split; done.
  - intros [[-> ->]|[-> Hne]]; [done|]. by destruct exc.
  - by destruct (subprocess_run cmd) as [[]|rc].
Qed.

(** X8: the probes of one run of [main].  They are the probes of the hosts
    of the network, one for each; all of them call [ping] with the same
    timeout argument, which is at least 1: on Windows the requested
    milliseconds (1 for a request below 1), elsewhere those milliseconds
    rounded up to whole seconds. *)
Theorem probes_of_a_run
    (system : string) (subprocess_run : list string → exn + Z)
    (as_completed : list Future → list Future) (args : Args) (w : World) :
  (∀ fs, as_completed fs ≡ₚ fs) →
  let requested := Z.max 1 (arg_timeout args) in
  let passed := if decide (system = "Windows") then requested
                else Z.max 1 (ceiling requested 1000) in
  ∃ probes,
    invoked (main system subprocess_run as_completed args w).2
    = invoked w ++ probes
    ∧ (λ cmd : list string, cmd !! 5) <$> probes
      ≡ₚ Some <$> hosts_of (arg_address args) (arg_prefixlen args)
    ∧ (∀ cmd, cmd ∈ probes →
         cmd !! 0 = Some "ping" ∧ cmd !! 4 = Some (str_int passed))
    ∧ (1 ≤ passed)%Z.
Proof.
  intros Hac requested passed.
  rewrite (main_invoked system subprocess_run as_completed Hac).
  eexists. split; [done|]. split; [|split].
  - rewrite <- list_fmap_compose. apply reflexive_eq, list_fmap_ext.
    intros i ip _. apply get_ping_command_target.
  - intros cmd (ip & -> & _)%list_elem_of_fmap.
    subst passed. fold requested. unfold get_ping_command.
    case_decide; [done|]. by rewrite floor_is_ceiling.
  - subst passed requested. case_decide; lia.
Qed.

Lemma probes_of_a_run_witness :
  let requested := Z.max 1 (arg_timeout Scenario.args30) in
  let passed := if decide ("Windows" = "Windows") then requested
                else Z.max 1 (ceiling requested 1000) in
  ∃ probes,
    invoked (main "Windows" Scenario.one_answers Scenario.backwards
               Scenario.args30 world0).2
    = invoked world0 ++ probes
    ∧ (λ cmd : list string, cmd !! 5) <$> probes
      ≡ₚ Some <$> hosts_of (arg_address Scenario.args30)
                    (arg_prefixlen Scenario.args30)
    ∧ (∀ cmd, cmd ∈ probes →
         cmd !! 0 = Some "ping" ∧ cmd !! 4 = Some (str_int passed))
    ∧ (1 ≤ passed)%Z.
Proof.
  apply (probes_of_a_run "Windows" Scenario.one_answers Scenario.backwards
           Scenario.args30 world0).
  apply backwards_once.
Defined.

(** ** Which addresses a sweep covers *)

Section Coverage.

Import ipaddress.

Lemma mask_hostmask_disjoint (len : Z) :
  (0 ≤ len)%Z → Z.land (ip_int_from_prefix len) (Z.shiftr ALL_ONES len) = 0%Z.
Proof.
  intros Hlen. unfold ip_int_from_prefix.
  pose proof (proj1 (in_range_land _) (hostmask_in_range len Hlen)) as Hh.
  apply Z.bits_inj'. intros n Hn.
  rewrite Z.land_spec, Z.lxor_spec, Z.bits_0.
  apply (f_equal (λ x, Z.testbit x n)) in Hh. rewrite Z.land_spec in Hh.
  destruct (Z.testbit (Z.shiftr ALL_ONES len) n), (Z.testbit ALL_ONES n);
    simpl in *; congruence.
Qed.

Lemma hostmask_value (len : Z) :
  (0 ≤ len ≤ 32)%Z → Z.shiftr ALL_ONES len = (2 ^ (32 - len) - 1)%Z.
Proof.
  intros Hlen. rewrite Z.shiftr_div_pow2 by lia. unfold ALL_ONES.
  assert (0 < 2 ^ len)%Z by (apply Z.pow_pos_nonneg; lia).
  assert (2 ^ 32 = 2 ^ len * 2 ^ (32 - len))%Z as Hsplit.
  { rewrite <- Z.pow_add_r by lia. f_equal. lia. }
  symmetry. apply (Z.div_unique _ _ _ (2 ^ len - 1)); [lia|].
  rewrite Hsplit. lia.
Qed.

Lemma broadcast_value (addr len : Z) :
  (0 ≤ addr ≤ ALL_ONES)%Z → (0 ≤ len ≤ 32)%Z →
  let mask := ip_int_from_prefix len in
  broadcast_address (Z.land addr mask) mask
  = (Z.land addr mask + 2 ^ (32 - len) - 1)%Z.
Proof.
  intros Ha Hlen mask. unfold broadcast_address. subst mask.
  rewrite hostmask_prefix.
  assert (Z.land (Z.land addr (ip_int_from_prefix len)) (Z.shiftr ALL_ONES len)
          = 0%Z) as Hdisjoint.
  { rewrite <- Z.land_assoc, mask_hostmask_disjoint by lia. apply Z.land_0_r. }
  rewrite <- (Z.lxor_lor _ _ Hdisjoint), <- (Z.add_nocarry_lxor _ _ Hdisjoint).
  rewrite hostmask_value by done. lia.
Qed.

Lemma full_mask : ip_int_from_prefix 32 = ALL_ONES.
Proof. reflexivity. Qed.

Lemma ip_network_masked (addr len : Z) :
  (0 ≤ addr ≤ ALL_ONES)%Z →
  ip_network (Z.land addr (ip_int_from_prefix len)) len = ip_network addr len.
Proof.
  intros Ha. pose proof (network_in_range addr len Ha) as Hn.
  unfold ip_network.
  destruct (decide (0 ≤ Z.land addr (ip_int_from_prefix len) ≤ ALL_ONES)%Z)
    as [_|[]]; [|done].
  destruct (decide (0 ≤ addr ≤ ALL_ONES)%Z) as [_|[]]; [|done].
  case_decide as Hlen; [|done].
  rewrite <- !Z.land_assoc, Z.land_diag. do 2 f_equal.
  destruct (decide (len = max_prefixlen - 1)%Z); [done|].
  destruct (decide (len = max_prefixlen)) as [->|]; [|done].
  unfold max_prefixlen. rewrite full_mask. f_equal. by apply in_range_land.
Qed.

Lemma hosts_of_range (addr len : Z) :
  (0 ≤ addr ≤ ALL_ONES)%Z → (0 ≤ len ≤ 30)%Z →
  let network := Z.land addr (ip_int_from_prefix len) in
  hosts_of addr len
  = string_from_ip_int <$> range (network + 1) (network + 2 ^ (32 - len) - 1).
Proof.
  intros Ha Hlen network. unfold hosts_of, ip_network, max_prefixlen.
  rewrite !decide_True by lia. rewrite !decide_False by lia. simpl.
  by rewrite broadcast_value by lia.
Qed.

End Coverage.

(** X9: host bits in the given network are ignored ([strict=False]): the sweep
    of an address with a prefix length covers the hosts of the network that
    address lies in, so it returns the same results and starts the same
    probes as the sweep of the network address itself. *)
Theorem host_bits_are_ignored
    (system : string) (subprocess_run : list string → exn + Z)
    (as_completed : list Future → list Future)
    (addr len threads timeout_ms : Z) (quiet : bool) (w : World) :
  (0 ≤ addr ≤ ipaddress.ALL_ONES)%Z →
  let network := Z.land addr (ipaddress.ip_int_from_prefix len) in
  hosts_of network len = hosts_of addr len
  ∧ (sweep_network system subprocess_run as_completed
       network len threads timeout_ms quiet w).1
    = (sweep_network system subprocess_run as_completed
         addr len threads timeout_ms quiet w).1
  ∧ invoked (sweep_network system subprocess_run as_completed
               network len threads timeout_ms quiet w).2
    = invoked (sweep_network system subprocess_run as_completed
                 addr len threads timeout_ms quiet w).2.
Proof.
  intros Ha network. subst network.
  unfold hosts_of, sweep_network. by rewrite ip_network_masked.
Qed.

Lemma host_bits_are_ignored_witness :
  let network := Z.land (Scenario.ten + 2) (ipaddress.ip_int_from_prefix 30) in
  hosts_of network 30 = hosts_of (Scenario.ten + 2) 30
  ∧ (sweep_network "Linux" Scenario.one_answers Scenario.backwards
       network 30 32 300 false world0).1
    = (sweep_network "Linux" Scenario.one_answers Scenario.backwards
         (Scenario.ten + 2) 30 32 300 false world0).1
  ∧ invoked (sweep_network "Linux" Scenario.one_answers Scenario.backwards
               network 30 32 300 false world0).2
    = invoked (sweep_network "Linux" Scenario.one_answers Scenario.backwards
                 (Scenario.ten + 2) 30 32 300 false world0).2.
Proof.
  apply (host_bits_are_ignored "Linux" Scenario.one_answers Scenario.backwards
           (Scenario.ten + 2) 30 32 300 false world0).
  vm_compute. split; discriminate.
Defined.

(** X10: the number of hosts a sweep announces and probes: one for a /32,
    two for a /31, and for every shorter prefix all addresses of the network
    but two, that is 2^(32-len) - 2. *)
Theorem number_of_hosts (addr len : Z) :
  (0 ≤ addr ≤ ipaddress.ALL_ONES)%Z → (0 ≤ len ≤ 32)%Z →
  Z.of_nat (length (hosts_of addr len))
  = if decide (len = 32)%Z then 1%Z
    else if decide (len = 31)%Z then 2%Z
    else (2 ^ (32 - len) - 2)%Z.
Proof.
  intros Ha Hlen. destruct (decide (len = 32)%Z) as [->|H32].
  { unfold hosts_of, ipaddress.ip_network, ipaddress.max_prefixlen.
    by rewrite !decide_True by done. }
  destruct (decide (len = 31)%Z) as [->|H31].
  { unfold hosts_of, ipaddress.ip_network, ipaddress.max_prefixlen.
    rewrite !decide_True by done. simpl. rewrite length_fmap.
    rewrite broadcast_value by done. unfold ipaddress.range.
    rewrite length_seqZ. simpl. lia. }
  rewrite hosts_of_range by lia. rewrite length_fmap. unfold ipaddress.range.
  rewrite length_seqZ.
  assert (2 ^ 2 ≤ 2 ^ (32 - len))%Z by (apply Z.pow_le_mono_r; lia). lia.
Qed.

Lemma number_of_hosts_witness :
  Z.of_nat (length (hosts_of (Scenario.ten + 77) 24))
  = if decide (24 = 32)%Z then 1%Z
    else if decide (24 = 31)%Z then 2%Z
    else (2 ^ (32 - 24) - 2)%Z.
Proof.
  apply (number_of_hosts (Scenario.ten + 77) 24).
  - vm_compute. split; discriminate.
  - lia.
Defined.

(** X11: which addresses are swept when the prefix is 30 bits or shorter: an
    address is among the hosts exactly when it lies strictly between the
    network address and the broadcast address; those two are never probed. *)
Theorem swept_addresses (addr len a : Z) :
  (0 ≤ addr ≤ ipaddress.ALL_ONES)%Z → (0 ≤ len ≤ 30)%Z →
  (0 ≤ a ≤ ipaddress.ALL_ONES)%Z →
  let network := Z.land addr (ipaddress.ip_int_from_prefix len) in
  let broadcast := (network + 2 ^ (32 - len) - 1)%Z in
  ipaddress.string_from_ip_int a ∈ hosts_of addr len
  ↔ (network < a < broadcast)%Z.
Proof.
  intros Haddr Hlen Ha network broadcast.
  rewrite hosts_of_range by done. fold network.
  pose proof (network_in_range addr len Haddr) as Hn. fold network in Hn.
  pose proof (broadcast_in_range addr len Haddr (proj1 Hlen)) as Hb.
  simpl in Hb. rewrite broadcast_value in Hb by lia. fold network in Hb.
  rewrite list_elem_of_fmap. unfold ipaddress.range. split.
  - intros (h & Heq & Hin). apply elem_of_seqZ in Hin.
    apply string_from_ip_int_inj in Heq; [subst; lia|done|lia].
  - intros Hbetween. exists a. split; [done|]. apply elem_of_seqZ.
    subst broadcast. lia.
Qed.

Lemma swept_addresses_witness :
  let network := Z.land (Scenario.ten + 77) (ipaddress.ip_int_from_prefix 24) in
  let broadcast := (network + 2 ^ (32 - 24) - 1)%Z in
  ipaddress.string_from_ip_int (Scenario.ten + 254)
    ∈ hosts_of (Scenario.ten + 77) 24
  ↔ (network < Scenario.ten + 254 < broadcast)%Z.
Proof.
  apply (swept_addresses (Scenario.ten + 77) 24 (Scenario.ten + 254)).
  - vm_compute. split; discriminate.
  - lia.
  - vm_compute. split; discriminate.
Defined.

(** ** Runs of the thread pool *)

Section PoolRuns.

Import Pool.

Context (max_workers : Z).

Lemma exec_app schedule rest s :
  exec max_workers (schedule ++ rest) s
  = exec max_workers schedule s ≫= exec max_workers rest.
Proof.
  revert s. induction schedule as [|e l IH]; intros s; simpl; [reflexivity|].
  destruct (step max_workers e s); simpl; [apply IH|reflexivity].
Qed.

Lemma in_flight_get (ws : list Worker) i ip :
  ws !! i = Some Waiting →
  length (filter (λ w, is_running w = true) (<[i := Running ip]> ws))
  = S (length (filter (λ w, is_running w = true) ws)).
Proof.
  revert i. induction ws as [|w ws IH]; intros [|i] Hi; try done; simpl in *.
  - injection Hi as ->. by rewrite filter_cons_False by done.
  - destruct w.
    + rewrite !filter_cons_False by done. by apply IH.
    + rewrite !filter_cons_True by done. simpl. f_equal. by apply IH.
Qed.

Lemma adjust_thread_count_in_flight s :
  in_flight (adjust_thread_count max_workers s) = in_flight s.
Proof.
  unfold adjust_thread_count, in_flight.
  destruct (idle_semaphore s); [|done]. case_decide; [|done]. simpl.
  rewrite filter_app, length_app, filter_cons_False by done. simpl. lia.
Qed.

Lemma adjust_thread_count_rest s :
  pending (adjust_thread_count max_workers s) = pending s
  ∧ work_queue (adjust_thread_count max_workers s) = work_queue s
  ∧ completed (adjust_thread_count max_workers s) = completed s.
Proof.
  unfold adjust_thread_count.
  destruct (idle_semaphore s); [|done]. by case_decide.
Qed.

(** Every step is one step of progress. *)
Lemma step_work_left e s s' :
  step max_workers e s = Some s' → S (work_left s') = work_left s.
Proof.
  destruct e as [|i|i]; simpl.
  - destruct (pending s) as [|ip rest] eqn:Hp; [done|]. intros [= <-].
    unfold work_left. rewrite adjust_thread_count_in_flight.
    destruct (adjust_thread_count_rest
                (mkState rest (work_queue s ++ [ip]) (threads s)
                   (idle_semaphore s) (completed s))) as (-> & -> & _).
    unfold in_flight. simpl. rewrite Hp, length_app. simpl. lia.
  - destruct (threads s !! i) as [[|]|] eqn:Hi; try done.
    destruct (work_queue s) as [|ip queue] eqn:Hq; [done|]. intros [= <-].
    unfold work_left, in_flight. simpl.
    rewrite Hq, (in_flight_get _ _ _ Hi). simpl. lia.
  - destruct (threads s !! i) as [[|ip]|] eqn:Hi; try done. intros [= <-].
    unfold work_left, in_flight. simpl.
    rewrite <- (in_flight_done _ _ _ Hi). lia.
Qed.

Lemma exec_work_left schedule : ∀ s s',
  exec max_workers schedule s = Some s' →
  length schedule + work_left s' = work_left s.
Proof.
  induction schedule as [|e rest IH]; intros s s'; simpl.
  - by intros [= <-].
  - destruct (step max_workers e s) as [s1|] eqn:Hstep; [|done].
    intros Hexec. apply IH in Hexec. apply step_work_left in Hstep. lia.
Qed.

Lemma work_left_drained s : work_left s = 0 ↔ drained s.
Proof.
  unfold work_left, drained. split.
  - intros H. repeat split; [apply nil_length_inv..|]; lia.
  - intros (-> & -> & ->). done.
Qed.

Lemma insert_not_nil (ws : list Worker) i w : ws ≠ [] → <[i := w]> ws ≠ [].
Proof.
  intros Hne Hnil. apply (f_equal length) in Hnil.
  rewrite length_insert in Hnil. by destruct ws.
Qed.

Lemma step_supplied e s s' :
  (0 < max_workers)%Z →
  step max_workers e s = Some s' → supplied s → supplied s'.
Proof.
  intros Hpos. destruct e as [|i|i]; simpl.
  - destruct (pending s) as [|ip rest]; [done|]. intros [= <-] Hs _.
    unfold adjust_thread_count. simpl.
    destruct (idle_semaphore s) as [|n] eqn:Hsem; simpl.
    + case_decide as Hlen; simpl.
      * by destruct (threads s).
      * intros Hnil. rewrite Hnil in Hlen. simpl in Hlen. lia.
    + apply Hs. right. by rewrite Hsem.
  - destruct (threads s !! i) as [[|]|] eqn:Hi; try done.
    destruct (work_queue s); [done|]. intros [= <-] _ _. simpl.
    apply insert_not_nil. intros Hnil. by rewrite Hnil in Hi.
  - destruct (threads s !! i) as [[|ip]|] eqn:Hi; try done.
    intros [= <-] _ _. simpl.
    apply insert_not_nil. intros Hnil. by rewrite Hnil in Hi.
Qed.

Lemma exec_supplied schedule : ∀ s s',
  (0 < max_workers)%Z →
  exec max_workers schedule s = Some s' → supplied s → supplied s'.
Proof.
  induction schedule as [|e rest IH]; intros s s' Hpos; simpl.
  - by intros [= <-].
  - destruct (step max_workers e s) as [s1|] eqn:Hstep; [|done].
    intros Hexec Hs. eapply IH; [done..|]. by eapply step_supplied.
Qed.

(** A state with work left can take a step. *)
Lemma progress s :
  supplied s → work_left s ≠ 0 → ∃ e s', step max_workers e s = Some s'.
Proof.
  intros Hs Hleft.
  destruct (pending s) as [|ip rest] eqn:Hp.
  2: { exists Submit. simpl. rewrite Hp. eauto. }
  destruct (filter (λ w, is_running w = true) (threads s)) as [|w l] eqn:Hrun.
  - destruct (work_queue s) as [|ip queue] eqn:Hq.
    { exfalso. apply Hleft. unfold work_left, in_flight.
      by rewrite Hp, Hq, Hrun. }
    destruct (threads s) as [|w ws] eqn:Hth.
    { exfalso. apply Hs; [left; by rewrite Hq|done]. }
    destruct w as [|ip'].
    + exists (Get 0). simpl. rewrite Hth, Hq. simpl. eauto.
    + by rewrite filter_cons_True in Hrun by done.
  - assert (w ∈ filter (λ w, is_running w = true) (threads s)) as Hin.
    { rewrite Hrun. left. }
    apply list_elem_of_filter in Hin as [Hw Hin].
    apply list_elem_of_lookup in Hin as [i Hi].
    destruct w as [|ip]; [done|].
    exists (Done i). simpl. rewrite Hi. eauto.
Qed.

(** From every supplied state some schedule drains the pool. *)
Lemma drain n : ∀ s,
  (0 < max_workers)%Z → work_left s = n → supplied s →
  ∃ rest s', exec max_workers rest s = Some s' ∧ drained s'.
Proof.
  induction n as [|n IH]; intros s Hpos Hleft Hs.
  - exists [], s. split; [done|]. by apply work_left_drained.
  - destruct (progress s Hs) as (e & s1 & Hstep); [lia|].
    destruct (IH s1 Hpos) as (rest & s' & Hexec & Hd).
    { apply step_work_left in Hstep. lia. }
    { by eapply step_supplied. }
    exists (e :: rest), s'. split; [|done]. simpl. by rewrite Hstep.
Qed.

Lemma adjust_thread_count_threads s :
  length (threads (adjust_thread_count max_workers s)) ≤ S (length (threads s)).
Proof.
  unfold adjust_thread_count.
  destruct (idle_semaphore s); [|simpl; lia].
  case_decide; simpl; [|lia]. rewrite length_app. simpl. lia.
Qed.

(** A thread is started only for a submitted host. *)
Lemma step_threads e s s' :
  step max_workers e s = Some s' →
  length (threads s) ≤ length (completed s) + length (work_queue s) + in_flight s →
  length (threads s') ≤ length (completed s') + length (work_queue s') + in_flight s'.
Proof.
  destruct e as [|i|i]; simpl.
  - destruct (pending s) as [|ip rest] eqn:Hp; [done|]. intros [= <-] H.
    rewrite adjust_thread_count_in_flight.
    destruct (adjust_thread_count_rest
                (mkState rest (work_queue s ++ [ip]) (threads s)
                   (idle_semaphore s) (completed s))) as (_ & -> & ->).
    etrans; [apply adjust_thread_count_threads|].
    unfold in_flight in *. simpl. rewrite length_app. simpl. lia.
  - destruct (threads s !! i) as [[|]|] eqn:Hi; try done.
    destruct (work_queue s) as [|ip queue] eqn:Hq; [done|]. intros [= <-].
    unfold in_flight. simpl.
    rewrite length_insert, (in_flight_get _ _ _ Hi). lia.
  - destruct (threads s !! i) as [[|ip]|] eqn:Hi; try done. intros [= <-].
    unfold in_flight. simpl.
    rewrite length_insert, length_app, <- (in_flight_done _ _ _ Hi). simpl. lia.
Qed.

Lemma exec_threads schedule : ∀ s s',
  exec max_workers schedule s = Some s' →
  length (threads s) ≤ length (completed s) + length (work_queue s) + in_flight s →
  length (threads s') ≤ length (completed s') + length (work_queue s') + in_flight s'.
Proof.
  induction schedule as [|e rest IH]; intros s s'; simpl.
  - by intros [= <-].
  - destruct (step max_workers e s) as [s1|] eqn:Hstep; [|done].
    intros Hexec H. eapply IH; [done|]. by eapply step_threads.
Qed.

(** Work is handed out in the order of submission. *)
Lemma step_fifo e s s' hosts :
  step max_workers e s = Some s' →
  work_queue s ++ pending s `suffix_of` hosts →
  work_queue s' ++ pending s' `suffix_of` hosts.
Proof.
  destruct e as [|i|i]; simpl.
  - destruct (pending s) as [|ip rest] eqn:Hp; [done|]. intros [= <-].
    destruct (adjust_thread_count_rest
                (mkState rest (work_queue s ++ [ip]) (threads s)
                   (idle_semaphore s) (completed s))) as (-> & -> & _).
    simpl. by rewrite <- (assoc_L (++)).
  - destruct (threads s !! i) as [[|]|] eqn:Hi; try done.
    destruct (work_queue s) as [|ip queue] eqn:Hq; [done|]. intros [= <-].
    simpl. apply suffix_cons_l.
  - destruct (threads s !! i) as [[|ip]|] eqn:Hi; try done. by intros [= <-].
Qed.

Lemma exec_fifo schedule hosts : ∀ s s',
  exec max_workers schedule s = Some s' →
  work_queue s ++ pending s `suffix_of` hosts →
  work_queue s' ++ pending s' `suffix_of` hosts.
Proof.
  induction schedule as [|e rest IH]; intros s s'; simpl.
  - by intros [= <-].
  - destruct (step max_workers e s) as [s1|] eqn:Hstep; [|done].
    intros Hexec H. eapply IH; [done|]. by eapply step_fifo.
Qed.

End PoolRuns.

Lemma init_supplied hosts : Pool.supplied (Pool.init hosts).
Proof. intros [H|H]; done. Qed.

(** X12: the pool cannot get stuck.  From every state a run can reach there is
    a way on that ends with nothing pending, queued or executing, and then
    the probes that have completed are those of the hosts, each host once. *)
Theorem every_run_can_finish
    (arg_threads : Z) (hosts : list string)
    (schedule : list Pool.Event) (s : Pool.State) :
  Pool.exec (Pool.concurrency arg_threads) schedule (Pool.init hosts) = Some s →
  ∃ rest s',
    Pool.exec (Pool.concurrency arg_threads) rest s = Some s'
    ∧ Pool.drained s'
    ∧ Pool.completed s' ≡ₚ hosts.
Proof.
  intros Hexec.
  assert (0 < Pool.concurrency arg_threads)%Z as Hpos
    by (unfold Pool.concurrency; lia).
  pose proof (exec_supplied _ _ _ _ Hpos Hexec (init_supplied hosts)) as Hs.
  destruct (drain (Pool.concurrency arg_threads) _ s Hpos eq_refl Hs)
    as (rest & s' & Hrest & Hd).
  exists rest, s'. split; [done|]. split; [done|].
  destruct Hd as (Hp & Hq & Hr).
  apply (drained_pool_completed_once (Pool.concurrency arg_threads) hosts
           (schedule ++ rest)); try done.
  rewrite exec_app, Hexec. done.
Qed.

Lemma every_run_can_finish_witness :
  let s := Pool.mkState [] ["10.0.0.2"] [Pool.Running "10.0.0.1"] 0 [] in
  ∃ rest s',
    Pool.exec (Pool.concurrency 1) rest s = Some s'
    ∧ Pool.drained s'
    ∧ Pool.completed s' ≡ₚ ["10.0.0.1"; "10.0.0.2"].
Proof.
  apply (every_run_can_finish 1 ["10.0.0.1"; "10.0.0.2"]
           [Pool.Submit; Pool.Get 0; Pool.Submit]).
  reflexivity.
Defined.

(** X13: a run of the pool takes three steps per host (submit, start,
    finish), never more: the steps taken and the steps left always add up to
    three times the number of hosts, and the pool is drained exactly when all
    of them have been taken. *)
Theorem three_steps_per_host
    (arg_threads : Z) (hosts : list string)
    (schedule : list Pool.Event) (s : Pool.State) :
  Pool.exec (Pool.concurrency arg_threads) schedule (Pool.init hosts) = Some s →
  length schedule + Pool.work_left s = 3 * length hosts
  ∧ (Pool.drained s ↔ length schedule = 3 * length hosts).
Proof.
  intros Hexec. apply exec_work_left in Hexec.
  assert (Pool.work_left (Pool.init hosts) = 3 * length hosts) as Hinit.
  { unfold Pool.work_left, Pool.in_flight. simpl. lia. }
  rewrite Hinit in Hexec. split; [done|].
  rewrite <- work_left_drained. lia.
Qed.

Lemma three_steps_per_host_witness :
  let s := Pool.mkState [] ["10.0.0.2"] [Pool.Running "10.0.0.1"] 0 [] in
  length [Pool.Submit; Pool.Get 0; Pool.Submit] + Pool.work_left s
  = 3 * length ["10.0.0.1"; "10.0.0.2"]
  ∧ (Pool.drained s
     ↔ length [Pool.Submit; Pool.Get 0; Pool.Submit]
       = 3 * length ["10.0.0.1"; "10.0.0.2"]).
Proof.
  apply (three_steps_per_host 1 ["10.0.0.1"; "10.0.0.2"]
           [Pool.Submit; Pool.Get 0; Pool.Submit]).
  reflexivity.
Defined.

(** X14: probes are started in the order of the host list.  In every state a
    run can reach, the hosts that are still queued or not yet submitted are a
    tail of the host list, in its order, and the hosts before that tail are
    the ones whose probes are executing or have completed. *)
Theorem probes_start_in_list_order
    (arg_threads : Z) (hosts : list string)
    (schedule : list Pool.Event) (s : Pool.State) :
  Pool.exec (Pool.concurrency arg_threads) schedule (Pool.init hosts) = Some s →
  ∃ started,
    hosts = started ++ Pool.work_queue s ++ Pool.pending s
    ∧ started ≡ₚ Pool.completed s ++ Pool.running_ips (Pool.threads s).
Proof.
  intros Hexec.
  destruct (exec_fifo _ schedule hosts _ _ Hexec) as [started Hsplit].
  { simpl. done. }
  exists started. split; [done|].
  apply exec_tasks in Hexec. unfold Pool.tasks in Hexec. simpl in Hexec.
  rewrite Hsplit, (assoc_L (++)) in Hexec.
  by apply (inj (.++ (Pool.work_queue s ++ Pool.pending s))) in Hexec.
Qed.

Lemma probes_start_in_list_order_witness :
  let s := Pool.mkState [] ["10.0.0.2"] [Pool.Running "10.0.0.1"] 0 [] in
  ∃ started,
    ["10.0.0.1"; "10.0.0.2"] = started ++ Pool.work_queue s ++ Pool.pending s
    ∧ started ≡ₚ Pool.completed s ++ Pool.running_ips (Pool.threads s).
Proof.
  apply (probes_start_in_list_order 1 ["10.0.0.1"; "10.0.0.2"]
           [Pool.Submit; Pool.Get 0; Pool.Submit]).
  reflexivity.
Defined.

(** X15: threads are started on demand.  The pool never has more threads
    than hosts have been submitted, nor more than [concurrency]: a sweep of
    a few hosts uses a few threads, whatever [--threads] says. *)
Theorem threads_started_on_demand
    (arg_threads : Z) (hosts : list string)
    (schedule : list Pool.Event) (s : Pool.State) :
  Pool.exec (Pool.concurrency arg_threads) schedule (Pool.init hosts) = Some s →
  length (Pool.threads s) + length (Pool.pending s) ≤ length hosts
  ∧ (Z.of_nat (length (Pool.threads s)) ≤ Pool.concurrency arg_threads)%Z.
Proof.
  intros Hexec. split.
  - pose proof (exec_threads _ _ _ _ Hexec) as Hthreads.
    pose proof (exec_tasks _ _ _ _ Hexec) as Htasks.
    apply Permutation_length in Htasks. unfold Pool.tasks in Htasks.
    rewrite !length_app, <- in_flight_running_ips in Htasks. simpl in Htasks.
    unfold Pool.in_flight in Hthreads at 1. simpl in Hthreads. lia.
  - eapply exec_bounded; [done|].
    unfold Pool.bounded, Pool.concurrency. simpl. lia.
Qed.

Lemma threads_started_on_demand_witness :
  let s := Pool.mkState [] ["10.0.0.2"] [Pool.Waiting; Pool.Running "10.0.0.1"] 0 [] in
  length (Pool.threads s) + length (Pool.pending s)
  ≤ length ["10.0.0.1"; "10.0.0.2"]
  ∧ (Z.of_nat (length (Pool.threads s)) ≤ Pool.concurrency 32)%Z.
Proof.
  apply (threads_started_on_demand 32 ["10.0.0.1"; "10.0.0.2"]
           [Pool.Submit; Pool.Submit; Pool.Get 1]).
  reflexivity.
Defined.

(** ** The counts of a sweep *)




